(** * RSI + MACD + SMA trading strategy (src/assignment.cpp)

    A shallow embedding of the four indicator functions and of
    [run_strategy], and the properties the specification states about them.

    Modelling choices.
    - [double] is an abstract carrier with the operations the program uses
      (class [Double]).  Every structural theorem is proved for an arbitrary
      carrier, so it holds whatever the arithmetic does (rounding, infinities,
      NaN).  Two instances are given: IEEE binary64 ([Binary64], the
      arithmetic of the compiled program) and exact rationals ([Exact]).
    - [vector<double>] is a [list]; [v[i]] is a checked read that faults
      ([None]) outside [0, size): the source's out-of-range access is
      undefined behaviour.  Faults propagate through the option monad.
    - [int] is [Z].  Indices are bounded by the series length and the two
      counters by the number of scanned bars ([counters_bounded]), so no
      32-bit overflow occurs on any series a [vector] can hold with fewer
      than 2^31 elements.  The first index [index - period + 1] of the loops
      of [calculate_rsi] and [calculate_sma] lies in [1, index] when
      [1 <= period <= index]; for a period of 0 or less the source's [int]
      subtraction can overflow, which is undefined.  The theorems about an
      arbitrary period therefore assume [1 <= period].
    - [for (int i = lo; i <= hi; ++i)] is [for_upto lo hi], an iteration of
      the loop body over the indices [lo, lo+1, ..., hi]. *)

From Stdlib Require Import ZArith List Bool Lia QArith Qabs Lqa.
From Stdlib Require Import Floats Uint63.
Import ListNotations.

Local Open Scope Z_scope.

(** ** The arithmetic of [double] *)

Class Double (D : Type) : Type := {
  dadd : D -> D -> D;
  dsub : D -> D -> D;
  dmul : D -> D -> D;
  ddiv : D -> D -> D;
  dlt : D -> D -> bool;      (* x < y *)
  deq : D -> D -> bool;      (* x == y *)
  of_int : Z -> D            (* int -> double conversion, also of literals *)
}.

Declare Scope dbl_scope.
Delimit Scope dbl_scope with D.
Notation "x + y" := (dadd x y) : dbl_scope.
Notation "x - y" := (dsub x y) : dbl_scope.
Notation "x * y" := (dmul x y) : dbl_scope.
Notation "x / y" := (ddiv x y) : dbl_scope.
Notation "x <? y" := (dlt x y) : dbl_scope.
Notation "x >? y" := (dlt y x) : dbl_scope.
Notation "x =? y" := (deq x y) : dbl_scope.

(** ** Faults, vectors and loops *)

Definition bind {A B : Type} (m : option A) (k : A -> option B) : option B :=
  match m with
  | Some a => k a
  | None => None
  end.

Notation "x <- m ;; k" := (bind m (fun x => k))
  (at level 61, m at next level, right associativity).

(** [v[i]] *)
Definition at_ {A : Type} (v : list A) (i : Z) : option A :=
  if i <? 0 then None else nth_error v (Z.to_nat i).

Notation "v @ i" := (at_ v i) (at level 20, i at next level, left associativity).

(** [v.size()] *)
Definition size {A : Type} (v : list A) : Z := Z.of_nat (length v).

(** [v.back()] *)
Definition back {A : Type} (v : list A) : option A := v @ (size v - 1).

Fixpoint iter_from {S : Type} (n : nat) (i : Z) (body : Z -> S -> option S) (s : S)
  : option S :=
  match n with
  | O => Some s
  | Datatypes.S n' => s' <- body i s ;; iter_from n' (i + 1) body s'
  end.

(** [for (int i = lo; i <= hi; ++i) s = body(i, s);] *)
Definition for_upto {S : Type} (lo hi : Z) (body : Z -> S -> option S) (s : S)
  : option S :=
  iter_from (Z.to_nat (hi + 1 - lo)) lo body s.

(** ** Indicator library *)

Section Indicators.
Context {D : Type} `{Double D}.

(** Body of the loop of [calculate_rsi] (l. 18-22); the state is
    [(gain, loss)]. *)
Definition rsi_body (closes : list D) (i : Z) (gl : D * D) : option (D * D) :=
  ci <- closes @ i ;;
  cp <- closes @ (i - 1) ;;
  let change := (ci - cp)%D in
  let (gain, loss) := gl in
  if (change >? of_int 0)%D
  then Some ((gain + change)%D, loss)
  else Some (gain, (loss - change)%D).

(** The statements after the loop (l. 25-28). *)
Definition rsi_of (gl : D * D) : D :=
  let (gain, loss) := gl in
  if (loss =? of_int 0)%D then of_int 100
  else
    let rs := (gain / loss)%D in
    (of_int 100 - of_int 100 / (of_int 1 + rs))%D.

(** [calculate_rsi] (l. 11-29).  The loop starts at [index - period + 1],
    computed here in [Z] and in the source in [int]: the two agree when
    [1 <= period], where the loop is reached only with
    [1 <= index - period + 1 <= index]. *)
Definition calculate_rsi (closes : list D) (index period : Z) : option D :=
  if index <? period then Some (of_int 50)
  else
    gl <- for_upto (index - period + 1) index (rsi_body closes)
                   (of_int 0, of_int 0) ;;
    Some (rsi_of gl).

(** [k = 2.0 / (length + 1)] (l. 35). *)
Definition smoothing (length : Z) : D := (of_int 2 / of_int (length + 1))%D.

(** Body of the loop of [ema] (l. 39-40). *)
Definition ema_body (data : list D) (k : D) (i : Z) (ema : D) : option D :=
  d <- data @ i ;;
  Some (d * k + ema * (of_int 1 - k))%D.

(** [ema] (l. 34-43). *)
Definition ema (data : list D) (current_index length : Z) : option D :=
  let k := smoothing length in
  ema0 <- data @ (current_index - length + 1) ;;
  for_upto (current_index - length + 2) current_index (ema_body data k) ema0.

(** [calculate_macd] (l. 48-52). *)
Definition calculate_macd (closes : list D) (index : Z) : option D :=
  ema12 <- ema closes index 12 ;;
  ema26 <- ema closes index 26 ;;
  Some (ema12 - ema26)%D.

(** Body of the loop of [calculate_sma] (l. 60-61). *)
Definition sma_body (closes : list D) (i : Z) (sum : D) : option D :=
  c <- closes @ i ;;
  Some (sum + c)%D.

(** [calculate_sma] (l. 56-63).  As in [calculate_rsi], the first index
    [index - period + 1] is the source's when [1 <= period]. *)
Definition calculate_sma (closes : list D) (index period : Z) : option D :=
  if index <? period then closes @ index
  else
    sum <- for_upto (index - period + 1) index (sma_body closes) (of_int 0) ;;
    Some (sum / of_int period)%D.

End Indicators.

(** ** Strategy engine *)

(** Modelled from the spec: [strategy.h] is not part of the sources.  A
    candle exposes a floating-point closing price; its other fields are not
    used by the strategy. *)
Record Candle (D : Type) : Type := { close : D }.
Arguments close {D} _.

(** Modelled from the spec: one completed trade of the per-trade log of
    [TradeResult] (declared in [strategy.h]). *)
Record TradeOutcome (D : Type) : Type := { return_fraction : D }.
Arguments return_fraction {D} _.

(** Modelled from the spec: [TradeResult] of [strategy.h], with the fields
    in the order of the initialiser [{success, avg_return, trades, {}}]. *)
Record TradeResult (D : Type) : Type := {
  success_rate : D;
  average_return_percent : D;
  trade_count : Z;
  trade_log : list (TradeOutcome D)
}.
Arguments success_rate {D} _.
Arguments average_return_percent {D} _.
Arguments trade_count {D} _.
Arguments trade_log {D} _.

(** The locals of [run_strategy] that live across loop iterations
    (l. 71-74). *)
Record Position (D : Type) : Type := {
  wins : Z;
  trades : Z;
  total_return : D;
  in_position : bool;
  entry_price : D
}.
Arguments wins {D} _.
Arguments trades {D} _.
Arguments total_return {D} _.
Arguments in_position {D} _.
Arguments entry_price {D} _.

Section Engine.
Context {D : Type} `{Double D}.

(** Their initial values. *)
Definition initial : Position D :=
  {| wins := 0; trades := 0; total_return := of_int 0;
     in_position := false; entry_price := of_int 0 |}.

(** Buy: [in_position = true; entry_price = closes[i];] *)
Definition open_at (price : D) (st : Position D) : Position D :=
  {| wins := wins st; trades := trades st; total_return := total_return st;
     in_position := true; entry_price := price |}.

(** [ret = (price - entry_price) / entry_price] *)
Definition trade_return (price : D) (st : Position D) : D :=
  ((price - entry_price st) / entry_price st)%D.

(** [total_return += ret; if (ret > profit_threshold) wins++; trades++;] *)
Definition book (profit_threshold : D) (price : D) (st : Position D)
  : Position D :=
  let ret := trade_return price st in
  {| wins := if (ret >? profit_threshold)%D then wins st + 1 else wins st;
     trades := trades st + 1;
     total_return := (total_return st + ret)%D;
     in_position := in_position st;
     entry_price := entry_price st |}.

(** Sell: the accounting of [book], then [in_position = false]. *)
Definition close_at (profit_threshold : D) (price : D) (st : Position D)
  : Position D :=
  let b := book profit_threshold price st in
  {| wins := wins b; trades := trades b; total_return := total_return b;
     in_position := false; entry_price := entry_price b |}.

(** [b && m] and [b || m], the right operand evaluated only when needed. *)
Definition and_then (b : bool) (m : option bool) : option bool :=
  if b then m else Some false.

Definition or_else (b : bool) (m : option bool) : option bool :=
  if b then Some true else m.

(** Body of the scan loop at index [i] (l. 78-102). *)
Definition step (closes : list D) (profit_threshold : D) (i : Z)
    (st : Position D) : option (Position D) :=
  rsi <- calculate_rsi closes i 14 ;;
  macd <- calculate_macd closes i ;;
  sma20 <- calculate_sma closes i 20 ;;
  buy <- and_then (negb (in_position st) && (rsi <? of_int 30)%D
                   && (macd >? of_int 0)%D)
                  (price <- closes @ i ;; Some (price >? sma20)%D) ;;
  if buy then
    price <- closes @ i ;; Some (open_at price st)
  else
    sell <- and_then (in_position st)
                     (or_else (rsi >? of_int 60)%D
                              (price <- closes @ i ;; Some (price <? sma20)%D)) ;;
    if sell then
      price <- closes @ i ;; Some (close_at profit_threshold price st)
    else Some st.

(** The scan loop (l. 77-103) run up to and including index [hi]:
    [for (int i = 26; i <= hi; ++i)]. *)
Definition scan (closes : list D) (profit_threshold : D) (hi : Z)
  : option (Position D) :=
  for_upto 26 hi (step closes profit_threshold) initial.

(** [if (in_position) { ... closes.back() ... }] (l. 106-111) *)
Definition force_close (closes : list D) (profit_threshold : D)
    (st : Position D) : option (Position D) :=
  if in_position st
  then last_price <- back closes ;; Some (book profit_threshold last_price st)
  else Some st.

(** The last three statements (l. 114-117). *)
Definition summarise (st : Position D) : TradeResult D :=
  let avg_return :=
    if trades st =? 0 then of_int 0
    else (total_return st / of_int (trades st) * of_int 100)%D in
  let success :=
    if trades st =? 0 then of_int 0
    else (of_int (wins st) / of_int (trades st) * of_int 100)%D in
  {| success_rate := success; average_return_percent := avg_return;
     trade_count := trades st; trade_log := [] |}.

(** [for (const auto& c : candles) closes.push_back(c.close);] (l. 68-69) *)
Definition closes_of (candles : list (Candle D)) : list D :=
  map close candles.

(** The accumulators as they stand when the summary is computed. *)
Definition final_position (candles : list (Candle D)) (profit_threshold : D)
  : option (Position D) :=
  let closes := closes_of candles in
  st <- scan closes profit_threshold (size closes - 1) ;;
  force_close closes profit_threshold st.

(** [run_strategy] (l. 67-118): the scan over [26 .. size - 1], the forced
    close, the summary. *)
Definition run_strategy (candles : list (Candle D)) (profit_threshold : D)
  : option (TradeResult D) :=
  st <- final_position candles profit_threshold ;;
  Some (summarise st).

End Engine.

(** ** Two arithmetics *)

Module Binary64.
(** [int] to [double]: exact for every 32-bit value. *)
Definition of_Z (z : Z) : float :=
  if z <? 0 then PrimFloat.opp (PrimFloat.of_uint63 (Uint63.of_Z (- z)))
  else PrimFloat.of_uint63 (Uint63.of_Z z).

#[export] Instance ops : Double float := {
  dadd := PrimFloat.add;
  dsub := PrimFloat.sub;
  dmul := PrimFloat.mul;
  ddiv := PrimFloat.div;
  dlt := PrimFloat.ltb;
  deq := PrimFloat.eqb;
  of_int := of_Z
}.

Definition candles_of (l : list float) : list (Candle float) :=
  map (fun c => {| close := c |}) l.
End Binary64.

Module Exact.
#[export] Instance ops : Double Q := {
  dadd := Qplus;
  dsub := Qminus;
  dmul := Qmult;
  ddiv := Qdiv;
  dlt := fun x y => negb (Qle_bool y x);
  deq := Qeq_bool;
  of_int := inject_Z
}.
End Exact.

(** ** Specification-side vocabulary *)

(** [v[lo..hi]], both ends included; empty when [hi < lo]. *)
Definition slice {A : Type} (v : list A) (lo hi : Z) : list A :=
  firstn (Z.to_nat (hi + 1 - lo)) (skipn (Z.to_nat lo) v).

Section Vocabulary.
Context {D : Type} `{Double D}.

(** Day-over-day changes of a run of bars: each bar minus the bar before. *)
Fixpoint day_changes (bars : list D) : list D :=
  match bars with
  | prev :: (cur :: _) as rest => (cur - prev)%D :: day_changes rest
  | _ => []
  end.

(** The changes that count as gains, and the others. *)
Definition rises (changes : list D) : list D :=
  filter (fun c => (c >? of_int 0)%D) changes.

Definition falls (changes : list D) : list D :=
  filter (fun c => negb (c >? of_int 0)%D) changes.

(** Sum of the positive changes. *)
Definition gain_of (changes : list D) : D :=
  fold_left dadd (rises changes) (of_int 0).

(** The other changes, each subtracted: the sum of their magnitudes. *)
Definition loss_of (changes : list D) : D :=
  fold_left dsub (falls changes) (of_int 0).

(** One iteration of the loop of [calculate_rsi], on a given change. *)
Definition rsi_acc (gl : D * D) (change : D) : D * D :=
  if (change >? of_int 0)%D
  then ((fst gl + change)%D, snd gl)
  else (fst gl, (snd gl - change)%D).

(** Left-to-right sum and arithmetic mean. *)
Definition total (l : list D) : D := fold_left dadd l (of_int 0).

Definition mean (l : list D) : D := (total l / of_int (size l))%D.

(** One step of the exponential recurrence. *)
Definition blend (k ema sample : D) : D :=
  (sample * k + ema * (of_int 1 - k))%D.

End Vocabulary.

(** ** The RSI sums as the specification words them *)

Section SpecWording.
Context {D : Type} `{Double D}.
Variable dabs : D -> D.

(** Modelled from the spec: [gain] is the sum of the positive day-over-day
    changes. *)
Definition gain_as_specified (changes : list D) : D :=
  total (filter (fun c => (c >? of_int 0)%D) changes).

(** Modelled from the spec: [loss] is the sum of the absolute values
    ([dabs]) of the negative day-over-day changes. *)
Definition loss_as_specified (changes : list D) : D :=
  total (map dabs (filter (fun c => (c <? of_int 0)%D) changes)).

(** Modelled from the spec: the value beyond the warm-up, from the changes
    of the bars [i-period+1 .. i], each against the bar before it: 100 when
    [loss = 0], and [100 - 100 / (1 + gain / loss)] otherwise. *)
Definition rsi_as_specified (closes : list D) (i period : Z) : D :=
  let changes := day_changes (slice closes (i - period) i) in
  let gain := gain_as_specified changes in
  let loss := loss_as_specified changes in
  if (loss =? of_int 0)%D then of_int 100
  else (of_int 100 - of_int 100 / (of_int 1 + gain / loss))%D.

End SpecWording.

(** ** Events of a run *)

Section Bookkeeping.
Context {D : Type} `{Double D}.

(** The entry and exit conditions on given indicator values. *)
Definition entry_signal (rsi macd sma20 price : D) : bool :=
  (rsi <? of_int 30)%D && (macd >? of_int 0)%D && (price >? sma20)%D.

Definition exit_signal (rsi sma20 price : D) : bool :=
  (rsi >? of_int 60)%D || (price <? sma20)%D.

(** The entry condition at index [i], from the indicators at [i]. *)
Definition entry_fires (closes : list D) (i : Z) : bool :=
  match calculate_rsi closes i 14, calculate_macd closes i,
        calculate_sma closes i 20, closes @ i with
  | Some rsi, Some macd, Some sma20, Some price =>
      entry_signal rsi macd sma20 price
  | _, _, _, _ => false
  end.

(** A position was opened, resp. closed, between two successive states. *)
Definition opened (before after : Position D) : bool :=
  negb (in_position before) && in_position after.

Definition closed (before after : Position D) : bool :=
  in_position before && negb (in_position after).

(** Number of indices among [26 .. 26+n-1] at which [event] relates the
    position before the index to the position after it. *)
Fixpoint count_events (event : Position D -> Position D -> bool)
    (closes : list D) (profit_threshold : D) (n : nat) : Z :=
  match n with
  | O => 0
  | S n' =>
      count_events event closes profit_threshold n' +
      match scan closes profit_threshold (26 + Z.of_nat n' - 1),
            scan closes profit_threshold (26 + Z.of_nat n') with
      | Some before, Some after => if event before after then 1 else 0
      | _, _ => 0
      end
  end.

(** Positions opened, and positions closed by the exit rule, over the scan. *)
Definition entries (closes : list D) (profit_threshold : D) : Z :=
  count_events opened closes profit_threshold (Z.to_nat (size closes - 26)).

Definition exits (closes : list D) (profit_threshold : D) : Z :=
  count_events closed closes profit_threshold (Z.to_nat (size closes - 26)).

End Bookkeeping.

(** ** Sample series *)

Module Samples.
Import Binary64.

(** Twelve bars at 1000, a jump to 1990 and fourteen falls of 1 down to
    1976 at index 26: RSI is 0, MACD is positive and the close is above its
    20-bar average, so a position opens at index 26. *)
Definition held : list float :=
  map of_Z (repeat 1000 12 ++
            [1990; 1989; 1988; 1987; 1986; 1985; 1984; 1983; 1982; 1981;
             1980; 1979; 1978; 1977; 1976]).

(** [held] followed by a rise to 2006 at index 27, which lifts RSI above 60
    and closes the position with a return of 30/1976. *)
Definition rally : list float := held ++ [of_Z 2006].

(** The shape of [held] with every price below zero. *)
Definition negative_prices : list float :=
  map of_Z (repeat (-1000) 12 ++
            [-10; -11; -12; -13; -14; -15; -16; -17; -18; -19;
             -20; -21; -22; -23; -24]).

(** Fifteen bars alternating between 0 and 2^1023: every change is finite,
    but the sums of the gains and of the losses both overflow. *)
Definition overflowing : list float :=
  [0; 0x1p1023; 0; 0x1p1023; 0; 0x1p1023; 0; 0x1p1023;
   0; 0x1p1023; 0; 0x1p1023; 0; 0x1p1023; 0]%float.

(** 1/100, rounded to binary64. *)
Definition one_percent : float := (1 / 100)%float.

End Samples.

(** A short series in exact arithmetic. *)
Definition ramp : list Q :=
  map inject_Z [10; 12; 11; 13; 14; 13; 15; 16; 18; 17; 19; 20; 22; 21; 23; 25].

(** ** Vocabulary for further properties *)

(** 1 while a position is open, 0 otherwise. *)
Definition open_count {D : Type} (st : Position D) : Z :=
  if in_position st then 1 else 0.

(** A run of bars in exact arithmetic in which each bar is at least, resp.
    strictly below, the bar before. *)
Fixpoint rising (bars : list Q) : Prop :=
  match bars with
  | prev :: (cur :: _) as rest => (prev <= cur)%Q /\ rising rest
  | _ => True
  end.

Fixpoint falling (bars : list Q) : Prop :=
  match bars with
  | prev :: (cur :: _) as rest => (cur < prev)%Q /\ falling rest
  | _ => True
  end.


(** ** Further sample series *)

Module MoreSamples.

Definition exact_candles (l : list Q) : list (Candle Q) :=
  map (fun c => {| close := c |}) l.

(** Thirty bars 1, 2, ..., 30 and thirty bars 60, 59, ..., 31. *)
Definition climb : list Q :=
  map (fun n => inject_Z (Z.of_nat n)) (seq 1 30).

Definition slide : list Q :=
  map (fun n => inject_Z (61 - Z.of_nat n)) (seq 1 30).

(** The bars of [Samples.rally], in exact arithmetic. *)
Definition rally_exact : list Q :=
  map inject_Z (repeat 1000 12 ++
                [1990; 1989; 1988; 1987; 1986; 1985; 1984; 1983; 1982; 1981;
                 1980; 1979; 1978; 1977; 1976; 2006]).

(** [Samples.held] followed by a bar without a price. *)
Definition gapped : list float := Samples.held ++ [nan].

(** [Samples.held] with one more bar in front. *)
Definition shifted : list float := Binary64.of_Z 5 :: Samples.held.

End MoreSamples.

(** Five bars, the middle one without a price: the changes into it and out
    of it are NaN. *)
Module GapSamples.
Definition nan_gap : list float := [1; 2; nan; 3; 2]%float.
End GapSamples.

(** ** Vocabulary for binary64 rounding *)

(** [fexp] of [SpecFloat] at precision 53 and [emax = 1024]: the exponent
    of the last mantissa bit of a number whose digits end at exponent [e]. *)
Definition fexp64 (e : Z) : Z := Z.max (e - 53) (-1074).

(** The round bit or the sticky bit of a shift record is set. *)
Definition inexact (r : shr_record) : bool := shr_r r || shr_s r.

(** [r] is [m] after [n] right shifts: its mantissa is the quotient of [m]
    by [2^n], and its flags are set only if [was] held before the shifts or
    a nonzero bit was shifted out. *)
Definition shifted_right (m : Z) (was : Prop) (n : Z) (r : shr_record) : Prop :=
  0 <= shr_m r /\ shr_m r * 2 ^ n <= m < (shr_m r + 1) * 2 ^ n /\
  (inexact r = true -> was \/ shr_m r * 2 ^ n < m).

(** [x] is [+0] or a positive number of value at most [b * 2^eb]. *)
Definition below (b eb : Z) (x : spec_float) : Prop :=
  match x with
  | S754_zero false => True
  | S754_finite false m e => e <= eb /\ Z.pos m <= b * 2 ^ (eb - e)
  | _ => False
  end.

(** [x] is [+infinity] or a positive number of value at least 1. *)
Definition at_least_one (x : spec_float) : Prop :=
  match x with
  | S754_finite false m e => 2 ^ (- e) <= Z.pos m
  | S754_infinity false => True
  | _ => False
  end.

(** [x] is [+0], a positive number or [+infinity]. *)
Definition not_negative (x : spec_float) : Prop :=
  match x with
  | S754_zero s | S754_infinity s | S754_finite s _ _ => s = false
  | S754_nan => False
  end.

(** The binary64 numbers 1 and 100. *)
Definition sf_one : spec_float := S754_finite false 4503599627370496 (-52).

Definition sf_hundred : spec_float := S754_finite false 7036874417766400 (-46).

(** ** Reads and loops *)

Ltac bind_inv :=
  repeat match goal with
  | H : bind ?m _ = Some _ |- _ =>
      let E := fresh "E" in
      destruct m eqn:E; cbn [bind] in H; [ | discriminate H ]
  end.

Section Reads.
Context {A : Type}.
Implicit Types (v : list A) (i lo hi : Z).

Lemma at_inv v i x : v @ i = Some x -> 0 <= i < size v.
Proof.
  unfold at_, size. destruct (Z.ltb_spec i 0); [discriminate|].
  intros E. assert (Z.to_nat i < length v)%nat
    by (apply nth_error_Some; congruence).
  lia.
Qed.

Lemma at_ok v i : 0 <= i < size v -> exists x, v @ i = Some x.
Proof.
  unfold at_, size. intros Hi.
  destruct (Z.ltb_spec i 0); [lia|].
  destruct (nth_error v (Z.to_nat i)) eqn:E; [eauto|].
  apply nth_error_None in E. lia.
Qed.

Lemma at_nat v (n : nat) : v @ (Z.of_nat n) = nth_error v n.
Proof.
  unfold at_. destruct (Z.ltb_spec (Z.of_nat n) 0); [lia|].
  now rewrite Nat2Z.id.
Qed.

(** On the prefix [v[0..n-1]] a read inside [0, n) is the read of [v]
    and every other read faults. *)
Lemma at_prefix v (n : nat) i :
  firstn n v @ i = if (0 <=? i) && (i <? Z.of_nat n) then v @ i else None.
Proof.
  unfold at_. destruct (Z.ltb_spec i 0) as [Hneg|Hpos].
  - destruct (Z.leb_spec 0 i); [lia|reflexivity].
  - destruct (Z.leb_spec 0 i); [|lia]. cbn [andb].
    rewrite nth_error_firstn.
    destruct (Z.ltb_spec i (Z.of_nat n));
      destruct (Nat.ltb_spec (Z.to_nat i) n); try lia; reflexivity.
Qed.

Lemma skipn_at v i x :
  v @ i = Some x -> skipn (Z.to_nat i) v = x :: skipn (Z.to_nat (i + 1)) v.
Proof.
  intros E. pose proof (at_inv _ _ _ E) as Hi.
  unfold at_ in E. destruct (Z.ltb_spec i 0); [lia|].
  replace (Z.to_nat (i + 1)) with (S (Z.to_nat i)) by lia.
  revert E. generalize (Z.to_nat i) as n. clear.
  induction v as [|a v IH]; intros [|n] E; try discriminate.
  - now inversion E.
  - cbn in E. cbn [skipn]. now apply IH.
Qed.

Lemma slice_nil v lo hi : hi < lo -> slice v lo hi = [].
Proof.
  intros Hlt. unfold slice.
  now replace (Z.to_nat (hi + 1 - lo)) with O by lia.
Qed.

Lemma slice_cons v lo hi x :
  lo <= hi -> v @ lo = Some x -> slice v lo hi = x :: slice v (lo + 1) hi.
Proof.
  intros Hle E. unfold slice. rewrite (skipn_at _ _ _ E).
  replace (Z.to_nat (hi + 1 - lo)) with (S (Z.to_nat (hi + 1 - (lo + 1)))) by lia.
  reflexivity.
Qed.

Lemma slice_at v lo hi k :
  0 <= lo -> 0 <= k -> lo + k <= hi -> slice v lo hi @ k = v @ (lo + k).
Proof.
  intros Hlo Hk Hhi. unfold slice. rewrite at_prefix.
  destruct (Z.leb_spec 0 k); [|lia].
  destruct (Z.ltb_spec k (Z.of_nat (Z.to_nat (hi + 1 - lo)))); [|lia].
  cbn [andb]. unfold at_.
  destruct (Z.ltb_spec k 0); [lia|]. destruct (Z.ltb_spec (lo + k) 0); [lia|].
  rewrite nth_error_skipn. f_equal. lia.
Qed.

Lemma slice_length v lo hi :
  0 <= lo -> hi < size v -> length (slice v lo hi) = Z.to_nat (hi + 1 - lo).
Proof.
  unfold slice, size. intros Hlo Hhi.
  rewrite length_firstn, length_skipn. lia.
Qed.

Lemma slice_size v lo hi :
  0 <= lo -> lo <= hi + 1 -> hi < size v -> size (slice v lo hi) = hi + 1 - lo.
Proof.
  intros Hlo Hle Hhi. unfold size at 1. rewrite slice_length by assumption. lia.
Qed.

End Reads.

Section Loops.
Context {S : Type}.
Implicit Types (body : Z -> S -> option S) (s : S) (lo hi i : Z).

Lemma for_upto_nil lo hi body s : hi < lo -> for_upto lo hi body s = Some s.
Proof.
  intros Hlt. unfold for_upto.
  now replace (Z.to_nat (hi + 1 - lo)) with O by lia.
Qed.

Lemma for_upto_cons lo hi body s :
  lo <= hi ->
  for_upto lo hi body s = (s' <- body lo s ;; for_upto (lo + 1) hi body s').
Proof.
  intros Hle. unfold for_upto.
  replace (Z.to_nat (hi + 1 - lo)) with (Datatypes.S (Z.to_nat (hi + 1 - (lo + 1))))
    by lia.
  reflexivity.
Qed.

Lemma iter_from_S n i body s :
  iter_from (Datatypes.S n) i body s =
  (s' <- body i s ;; iter_from n (i + 1) body s').
Proof. reflexivity. Qed.

Lemma iter_from_snoc n i body s :
  iter_from (Datatypes.S n) i body s =
  (s' <- iter_from n i body s ;; body (i + Z.of_nat n) s').
Proof.
  revert i s. induction n as [|n IH]; intros i s.
  - cbn. replace (i + 0) with i by lia. now destruct (body i s).
  - rewrite (iter_from_S (Datatypes.S n)), (iter_from_S n i).
    destruct (body i s) as [s1|]; cbn [bind]; [|reflexivity].
    rewrite IH.
    replace (i + 1 + Z.of_nat n) with (i + Z.of_nat (Datatypes.S n)) by lia.
    reflexivity.
Qed.

(** The last iteration peeled off: the loop up to [hi] is the loop up to
    [hi - 1] followed by the body at [hi]. *)
Lemma for_upto_snoc lo hi body s :
  lo <= hi ->
  for_upto lo hi body s = (s' <- for_upto lo (hi - 1) body s ;; body hi s').
Proof.
  intros Hle. unfold for_upto.
  replace (Z.to_nat (hi + 1 - lo)) with (Datatypes.S (Z.to_nat (hi - 1 + 1 - lo)))
    by lia.
  rewrite iter_from_snoc.
  replace (lo + Z.of_nat (Z.to_nat (hi - 1 + 1 - lo))) with hi by lia.
  reflexivity.
Qed.

(** Loop invariants. *)
Lemma for_upto_invariant (P : Z -> S -> Prop) lo hi body s s' :
  lo <= hi + 1 ->
  P lo s ->
  (forall i t t', lo <= i <= hi -> P i t -> body i t = Some t' -> P (i + 1) t') ->
  for_upto lo hi body s = Some s' ->
  P (hi + 1) s'.
Proof.
  intros Hle H0 Hstep. unfold for_upto.
  remember (Z.to_nat (hi + 1 - lo)) as n eqn:Hn.
  replace (hi + 1) with (lo + Z.of_nat n) by lia.
  assert (Hb : lo + Z.of_nat n <= hi + 1) by lia.
  clear Hn Hle. revert lo s H0 Hstep Hb.
  induction n as [|n IH]; intros lo s H0 Hstep Hb Hrun.
  - cbn in Hrun. inversion Hrun; subst. now replace (lo + Z.of_nat 0) with lo by lia.
  - cbn [iter_from] in Hrun. bind_inv.
    replace (lo + Z.of_nat (Datatypes.S n)) with (lo + 1 + Z.of_nat n) by lia.
    apply (IH (lo + 1) s0); [ | | lia | exact Hrun].
    + apply (Hstep lo s); [lia|assumption|assumption].
    + intros i t t' Hi. apply Hstep. lia.
Qed.

(** A loop whose body cannot fault on the scanned indices terminates
    with a result. *)
Lemma for_upto_total lo hi body s :
  (forall i t, lo <= i <= hi -> exists t', body i t = Some t') ->
  exists s', for_upto lo hi body s = Some s'.
Proof.
  intros Hok. unfold for_upto.
  remember (Z.to_nat (hi + 1 - lo)) as n eqn:Hn.
  assert (Hb : n = O \/ lo + Z.of_nat n <= hi + 1) by lia. clear Hn.
  revert lo s Hok Hb. induction n as [|n IH]; intros lo s Hok Hb.
  - cbn. eauto.
  - cbn [iter_from]. destruct (Hok lo s) as [t' ->]; [lia|]. cbn [bind].
    apply IH; [|lia]. intros i t Hi. apply Hok. lia.
Qed.

End Loops.

(** A loop that reads [v[i]] at each index and folds it into the state is
    the fold of [v[lo..hi]], and does not fault inside the vector. *)
Lemma for_upto_reads {A S : Type} (v : list A) (f : S -> A -> S) lo hi s :
  hi < lo \/ (0 <= lo /\ hi < size v) ->
  for_upto lo hi (fun i t => x <- v @ i ;; Some (f t x)) s =
  Some (fold_left f (slice v lo hi) s).
Proof.
  intros Hr.
  remember (Z.to_nat (hi + 1 - lo)) as n eqn:Hn.
  revert lo s Hr Hn. induction n as [|n IH]; intros lo s Hr Hn.
  - rewrite for_upto_nil, slice_nil by lia. reflexivity.
  - destruct Hr as [Hr|[Hlo Hhi]]; [lia|].
    destruct (at_ok v lo) as [x Ex]; [lia|].
    rewrite for_upto_cons by lia. rewrite Ex. cbn [bind].
    rewrite (slice_cons v lo hi x) by (lia || assumption). cbn [fold_left].
    apply IH; lia.
Qed.

(** ** The indicators as window computations *)

Section IndicatorFacts.
Context {D : Type} `{Double D}.
Implicit Types (closes data : list D) (i index period length lo hi : Z).

Lemma fold_left_filter {A B : Type} (f : A -> B -> A) (p : B -> bool)
    (l : list B) (a : A) :
  fold_left (fun a x => if p x then f a x else a) l a = fold_left f (filter p l) a.
Proof.
  revert a. induction l as [|x l IH]; intros a; [reflexivity|].
  cbn [fold_left filter]. destruct (p x); [cbn [fold_left]|]; apply IH.
Qed.

Lemma rsi_acc_split changes g l :
  fold_left rsi_acc changes (g, l) =
  (fold_left dadd (rises changes) g, fold_left dsub (falls changes) l).
Proof.
  unfold rises, falls. rewrite <- !fold_left_filter.
  revert g l. induction changes as [|c cs IH]; intros g l; [reflexivity|].
  cbn [fold_left]. unfold rsi_acc at 2. cbn [fst snd].
  destruct (c >? of_int 0)%D; cbn [negb]; apply IH.
Qed.

Lemma day_changes_cons (prev : D) (bars : list D) (cur : D) (rest : list D) :
  bars = cur :: rest ->
  day_changes (prev :: bars) = (cur - prev)%D :: day_changes bars.
Proof. intros ->. reflexivity. Qed.

Lemma rsi_loop closes lo hi gl :
  hi < lo \/ (1 <= lo /\ hi < size closes) ->
  for_upto lo hi (rsi_body closes) gl =
  Some (fold_left rsi_acc (day_changes (slice closes (lo - 1) hi)) gl).
Proof.
  intros Hr.
  remember (Z.to_nat (hi + 1 - lo)) as n eqn:Hn.
  revert lo gl Hr Hn. induction n as [|n IH]; intros lo gl Hr Hn.
  - rewrite for_upto_nil by lia.
    assert (Hlen : (length (slice closes (lo - 1) hi) <= 1)%nat).
    { unfold slice. rewrite length_firstn. lia. }
    destruct (slice closes (lo - 1) hi) as [|a [|b r]]; cbn in Hlen; try lia;
      reflexivity.
  - destruct Hr as [Hr|[Hlo Hhi]]; [lia|].
    destruct (at_ok closes lo) as [cur Ecur]; [lia|].
    destruct (at_ok closes (lo - 1)) as [prev Eprev]; [lia|].
    rewrite for_upto_cons by lia.
    unfold rsi_body at 1. rewrite Ecur, Eprev. cbn [bind].
    rewrite (slice_cons closes (lo - 1) hi prev) by (lia || assumption).
    replace (lo - 1 + 1) with lo by lia.
    rewrite (day_changes_cons prev _ cur _ (slice_cons closes lo hi cur ltac:(lia) Ecur)).
    cbn [fold_left]. unfold rsi_acc at 2.
    destruct gl as [g l]. cbn [fst snd]. cbn zeta.
    destruct (cur - prev >? of_int 0)%D; cbn [bind];
      rewrite (IH (lo + 1)) by lia;
      replace (lo + 1 - 1) with lo by lia; reflexivity.
Qed.

Lemma day_changes_length (bars : list D) :
  length (day_changes bars) = Nat.pred (length bars).
Proof.
  induction bars as [|a [|b r] IH]; [reflexivity|reflexivity|].
  cbn [day_changes length] in *. now rewrite IH.
Qed.

(** The value of [calculate_rsi] beyond the warm-up, with no fault. *)
Lemma rsi_window closes index period :
  1 <= period /\ period <= index < size closes ->
  let changes := day_changes (slice closes (index - period) index) in
  calculate_rsi closes index period =
  Some (rsi_of (gain_of changes, loss_of changes)).
Proof.
  intros Hr changes. unfold calculate_rsi.
  destruct (Z.ltb_spec index period); [lia|].
  rewrite rsi_loop by lia. cbn [bind].
  replace (index - period + 1 - 1) with (index - period) by lia.
  now rewrite rsi_acc_split.
Qed.

Lemma sma_loop closes lo hi s :
  hi < lo \/ (0 <= lo /\ hi < size closes) ->
  for_upto lo hi (sma_body closes) s = Some (fold_left dadd (slice closes lo hi) s).
Proof. intros. unfold sma_body. now apply for_upto_reads. Qed.

Lemma ema_loop data k lo hi e :
  hi < lo \/ (0 <= lo /\ hi < size data) ->
  for_upto lo hi (ema_body data k) e =
  Some (fold_left (blend k) (slice data lo hi) e).
Proof. intros. unfold ema_body. now apply (for_upto_reads data (blend k)). Qed.

(** The value of [ema] when the seed and the bar [i] are in the series. *)
Lemma ema_window data i length :
  length - 1 <= i -> i < size data -> i - length + 1 < size data ->
  exists seed,
    data @ (i - length + 1) = Some seed /\
    ema data i length =
    Some (fold_left (blend (smoothing length)) (slice data (i - length + 2) i) seed).
Proof.
  intros Hl Hi Hs. destruct (at_ok data (i - length + 1)) as [seed E]; [lia|].
  exists seed. split; [exact E|].
  unfold ema. rewrite E. cbn [bind]. apply ema_loop; lia.
Qed.

(** The value of [calculate_sma] beyond the warm-up. *)
Lemma sma_window closes i p :
  1 <= p /\ p <= i < size closes ->
  calculate_sma closes i p =
  Some (total (slice closes (i - p + 1) i) / of_int p)%D.
Proof.
  intros Hi. unfold calculate_sma.
  destruct (Z.ltb_spec i p); [lia|].
  rewrite sma_loop by lia. reflexivity.
Qed.

End IndicatorFacts.

(** ** The scan *)

Section EngineFacts.
Context {D : Type} `{Double D}.
Implicit Types (closes : list D) (candles : list (Candle D))
               (st : Position D) (i hi : Z).

Lemma size_closes_of candles : size (closes_of candles) = size candles.
Proof. unfold size, closes_of. now rewrite length_map. Qed.

(** From index 26 on, inside the series, no indicator faults. *)
Lemma indicators_ok closes i :
  26 <= i < size closes ->
  exists rsi macd sma20 price,
    calculate_rsi closes i 14 = Some rsi /\
    calculate_macd closes i = Some macd /\
    calculate_sma closes i 20 = Some sma20 /\
    closes @ i = Some price.
Proof.
  intros Hi.
  destruct (ema_window closes i 12) as (s12 & _ & E12); [lia|lia|lia|].
  destruct (ema_window closes i 26) as (s26 & _ & E26); [lia|lia|lia|].
  destruct (at_ok closes i) as [price Ep]; [lia|].
  eexists _, _, _, price. repeat split.
  - apply rsi_window. lia.
  - unfold calculate_macd. rewrite E12, E26. reflexivity.
  - apply sma_window. lia.
  - exact Ep.
Qed.

(** What one index does to the position, in terms of the signals. *)
Lemma step_cases closes thr i st rsi macd sma20 price :
  calculate_rsi closes i 14 = Some rsi ->
  calculate_macd closes i = Some macd ->
  calculate_sma closes i 20 = Some sma20 ->
  closes @ i = Some price ->
  step closes thr i st =
  Some (if in_position st
        then if exit_signal rsi sma20 price then close_at thr price st else st
        else if entry_signal rsi macd sma20 price then open_at price st else st).
Proof.
  intros Er Em Ea Ep. unfold step, and_then, or_else, entry_signal, exit_signal.
  rewrite Er, Em, Ea, Ep. cbn [bind].
  destruct (in_position st), (rsi <? of_int 30)%D, (macd >? of_int 0)%D,
    (price >? sma20)%D, (rsi >? of_int 60)%D, (price <? sma20)%D; reflexivity.
Qed.

Lemma step_total closes thr i st :
  26 <= i < size closes -> exists st', step closes thr i st = Some st'.
Proof.
  intros Hi.
  destruct (indicators_ok closes i Hi) as (r & m & a & p & Er & Em & Ea & Ep).
  rewrite (step_cases closes thr i st r m a p Er Em Ea Ep). eauto.
Qed.

Lemma scan_total closes thr hi :
  hi < size closes -> exists st, scan closes thr hi = Some st.
Proof.
  intros Hhi. apply for_upto_total. intros i t Hi. apply step_total. lia.
Qed.

Lemma scan_before closes thr hi : hi < 26 -> scan closes thr hi = Some initial.
Proof. intros Hhi. now apply for_upto_nil. Qed.

Lemma scan_snoc closes thr i :
  26 <= i ->
  scan closes thr i = (st <- scan closes thr (i - 1) ;; step closes thr i st).
Proof. intros Hi. now apply for_upto_snoc. Qed.

(** An invariant of the position that the three outcomes of an index
    preserve holds after every scan. *)
Lemma scan_invariant (P : Position D -> Prop) closes thr hi :
  hi < size closes ->
  P initial ->
  (forall i price st,
      26 <= i <= hi -> closes @ i = Some price -> P st ->
      (in_position st = false -> P (open_at price st)) /\
      (in_position st = true -> P (close_at thr price st))) ->
  exists st, scan closes thr hi = Some st /\ P st.
Proof.
  intros Hhi H0 Hstep.
  destruct (scan_total closes thr hi Hhi) as [st Est]. exists st. split; [exact Est|].
  destruct (Z.lt_ge_cases hi 26) as [Hlt|Hge].
  - rewrite scan_before in Est by assumption. now inversion Est.
  - apply (for_upto_invariant (fun _ s => P s) 26 hi
             (step closes thr) initial st); [lia|exact H0| |exact Est].
    intros i t t' Hi Pt Et.
    destruct (indicators_ok closes i) as (r & m & a & p & Er & Em & Ea & Ep);
      [lia|].
    rewrite (step_cases closes thr i t r m a p Er Em Ea Ep) in Et. inversion Et; subst t'; clear Et.
    destruct (Hstep i p t Hi Ep Pt) as [Hopen Hclose].
    destruct (in_position t).
    + destruct (exit_signal r a p); auto.
    + destruct (entry_signal r m a p); auto.
Qed.

(** The counters stay within the number of scanned bars: no [int] wraps. *)
Lemma counters_bounded closes thr hi :
  hi < size closes ->
  exists st, scan closes thr hi = Some st /\
             0 <= wins st <= trades st /\ trades st <= Z.max 0 (hi - 25).
Proof.
  intros Hhi.
  destruct (scan_total closes thr hi Hhi) as [st Est]. exists st. split; [exact Est|].
  destruct (Z.lt_ge_cases hi 26) as [Hlt|Hge].
  - rewrite scan_before in Est by assumption. inversion Est. cbn. lia.
  - replace (Z.max 0 (hi - 25)) with (hi + 1 - 26) by lia.
    apply (for_upto_invariant
             (fun i s => 0 <= wins s <= trades s /\ trades s <= i - 26)
             26 hi (step closes thr) initial st); [lia|cbn; lia| |exact Est].
    intros i t t' Hi Pt Et.
    destruct (indicators_ok closes i) as (r & m & a & p & Er & Em & Ea & Ep);
      [lia|].
    rewrite (step_cases closes thr i t r m a p Er Em Ea Ep) in Et. inversion Et; subst t'; clear Et.
    destruct (in_position t).
    + destruct (exit_signal r a p); cbn; [|lia].
      destruct (trade_return p t >? thr)%D; lia.
    + destruct (entry_signal r m a p); cbn; lia.
Qed.

(** A position is open only on a series longer than the warm-up, so the
    forced close finds a last bar. *)
Lemma open_needs_bars closes thr st :
  scan closes thr (size closes - 1) = Some st ->
  in_position st = true -> 26 < size closes.
Proof.
  intros Est Hin. destruct (Z.lt_ge_cases 26 (size closes)) as [|Hle]; [assumption|].
  rewrite scan_before in Est by lia. inversion Est; subst. discriminate Hin.
Qed.

Lemma force_close_total closes thr st :
  scan closes thr (size closes - 1) = Some st ->
  exists st', force_close closes thr st = Some st'.
Proof.
  intros Est. unfold force_close. destruct (in_position st) eqn:Hin; [|eauto].
  pose proof (open_needs_bars closes thr st Est Hin) as Hlen.
  unfold back. destruct (at_ok closes (size closes - 1)) as [x ->]; [lia|].
  cbn [bind]. eauto.
Qed.

(** [run_strategy] returns on every input. *)
Lemma run_strategy_total candles thr :
  exists st, final_position candles thr = Some st /\
             run_strategy candles thr = Some (summarise st).
Proof.
  unfold run_strategy, final_position.
  destruct (scan_total (closes_of candles) thr (size (closes_of candles) - 1))
    as [st Est]; [lia|].
  rewrite Est. cbn [bind].
  destruct (force_close_total _ thr _ Est) as [st' ->]. cbn [bind]. eauto.
Qed.

End EngineFacts.

(** ** The indicator contracts *)

Section IndicatorContracts.
Context {D : Type} `{Double D}.
Implicit Types (closes data : list D) (i period length p : Z).

Lemma day_changes_at (bars : list D) (k : nat) (prev cur : D) :
  nth_error bars k = Some prev -> nth_error bars (S k) = Some cur ->
  nth_error (day_changes bars) k = Some (cur - prev)%D.
Proof.
  revert k. induction bars as [|a [|b r] IH]; intros k Ep Ec.
  - destruct k; discriminate.
  - destruct k as [|[|k]]; discriminate.
  - destruct k as [|k].
    + cbn in Ep, Ec. inversion Ep; inversion Ec; subst. reflexivity.
    + change (day_changes (a :: b :: r)) with ((b - a)%D :: day_changes (b :: r)).
      cbn [nth_error] in *. now apply IH.
Qed.

(** The changes [calculate_rsi] works on, and its value from them. *)
Lemma rsi_changes_formula closes i period :
  1 <= period /\ period <= i < size closes ->
  let changes := day_changes (slice closes (i - period) i) in
  let gain := gain_of changes in
  let loss := loss_of changes in
  (1 <= period -> size changes = period) /\
  (forall j, i - period + 1 <= j <= i ->
     exists cur prev,
       closes @ j = Some cur /\ closes @ (j - 1) = Some prev /\
       changes @ (j - (i - period + 1)) = Some (cur - prev)%D) /\
  calculate_rsi closes i period =
  Some (if (loss =? of_int 0)%D then of_int 100
        else (of_int 100 - of_int 100 / (of_int 1 + gain / loss))%D).
Proof.
  intros Hr changes gain loss. split; [|split].
  - intros Hp. unfold size, changes. rewrite day_changes_length.
    rewrite slice_length by lia. lia.
  - intros j Hj.
    destruct (at_ok closes j) as [cur Ec]; [lia|].
    destruct (at_ok closes (j - 1)) as [prev Ep]; [lia|].
    exists cur, prev. repeat split; try assumption.
    unfold changes. set (k := j - (i - period + 1)).
    assert (Hk : 0 <= k) by (unfold k; lia).
    rewrite <- (Z2Nat.id k Hk), at_nat.
    apply day_changes_at.
    + rewrite <- at_nat, Z2Nat.id by exact Hk.
      rewrite slice_at by (unfold k; lia). rewrite <- Ep. f_equal. unfold k; lia.
    + rewrite <- at_nat. replace (Z.of_nat (S (Z.to_nat k))) with (k + 1) by lia.
      rewrite slice_at by (unfold k; lia). rewrite <- Ec. f_equal. unfold k; lia.
  - apply (rsi_window closes i period Hr).
Qed.

(** C6.  [calculate_sma] returns [closes[i]] itself when [i < p]; when
    [i >= p], for a period [p >= 1] and [i] inside the series, it returns
    the left-to-right sum of the [p] closes [closes[i-p+1 .. i]] divided by
    [p], their arithmetic mean. *)
Theorem sma_contract closes i p :
  (i < p -> calculate_sma closes i p = closes @ i) /\
  (1 <= p <= i -> i < size closes ->
     let window := slice closes (i - p + 1) i in
     size window = p /\
     mean window = (total window / of_int p)%D /\
     calculate_sma closes i p = Some (mean window)).
Proof.
  split.
  - intros Hlt. unfold calculate_sma. destruct (Z.ltb_spec i p); [reflexivity|lia].
  - intros Hp Hi window.
    assert (Hs : size window = p).
    { unfold window. rewrite slice_size by lia. lia. }
    split; [exact Hs|]. unfold mean. rewrite Hs. split; [reflexivity|].
    apply sma_window. lia.
Qed.

(** C7.  With [i >= length - 1] (and the seed and bar [i] inside the
    series) [ema] starts from [data[i-length+1]], the bar [length-1]
    before [i], and folds the samples [data[i-length+2 .. i]] in order
    with [ema = sample * k + ema * (1 - k)], [k = 2 / (length + 1)];
    [calculate_macd] is [ema(closes, i, 12) - ema(closes, i, 26)]. *)
Theorem ema_macd_contract data i :
  (forall length,
     length - 1 <= i -> i < size data -> i - length + 1 < size data ->
     let k := (of_int 2 / of_int (length + 1))%D in
     exists seed,
       data @ (i - (length - 1)) = Some seed /\
       ema data i length =
       Some (fold_left (fun ema sample => (sample * k + ema * (of_int 1 - k))%D)
                       (slice data (i - length + 2) i) seed)) /\
  (25 <= i < size data ->
     exists ema12 ema26,
       ema data i 12 = Some ema12 /\ ema data i 26 = Some ema26 /\
       calculate_macd data i = Some (ema12 - ema26)%D).
Proof.
  split.
  - intros length Hl Hi Hs k.
    destruct (ema_window data i length Hl Hi Hs) as (seed & Es & Ee).
    exists seed. split; [|exact Ee].
    rewrite <- Es. f_equal. lia.
  - intros Hi.
    destruct (ema_window data i 12) as (s12 & _ & E12); [lia|lia|lia|].
    destruct (ema_window data i 26) as (s26 & _ & E26); [lia|lia|lia|].
    eexists _, _. split; [exact E12|]. split; [exact E26|].
    unfold calculate_macd. rewrite E12, E26. reflexivity.
Qed.

End IndicatorContracts.

(** ** The position state machine *)

Section StateMachine.
Context {D : Type} `{Double D}.
Implicit Types (closes : list D) (candles : list (Candle D))
               (st : Position D) (i hi : Z).

(** C1.  At a scanned index [i >= 26], with [st] the position left by the
    indices before [i]: when flat and RSI < 30, MACD > 0 and close > SMA20
    all hold, the position becomes long with [entry_price = closes[i]] and
    nothing else changes; when long and RSI > 60 or close < SMA20, it
    becomes flat, the return [(closes[i] - entry_price) / entry_price] is
    added to the total, the trade count grows by one and the win count by
    one exactly when the return exceeds the threshold; in every other case
    the position is unchanged.  Each index applies one of these three
    outcomes, so never both transitions. *)
Theorem transitions_at closes thr i :
  26 <= i < size closes ->
  exists st rsi macd sma20 price,
    scan closes thr (i - 1) = Some st /\
    calculate_rsi closes i 14 = Some rsi /\
    calculate_macd closes i = Some macd /\
    calculate_sma closes i 20 = Some sma20 /\
    closes @ i = Some price /\
    (in_position st = false ->
     (rsi <? of_int 30)%D = true -> (macd >? of_int 0)%D = true ->
     (price >? sma20)%D = true ->
     scan closes thr i =
     Some {| wins := wins st; trades := trades st;
             total_return := total_return st;
             in_position := true; entry_price := price |}) /\
    (in_position st = true ->
     (rsi >? of_int 60)%D = true \/ (price <? sma20)%D = true ->
     let ret := ((price - entry_price st) / entry_price st)%D in
     scan closes thr i =
     Some {| wins := if (ret >? thr)%D then wins st + 1 else wins st;
             trades := trades st + 1;
             total_return := (total_return st + ret)%D;
             in_position := false; entry_price := entry_price st |}) /\
    (in_position st = false /\
       ((rsi <? of_int 30)%D && (macd >? of_int 0)%D && (price >? sma20)%D) = false
     \/ in_position st = true /\
       ((rsi >? of_int 60)%D || (price <? sma20)%D) = false ->
     scan closes thr i = Some st).
Proof.
  intros Hi.
  destruct (scan_total closes thr (i - 1)) as [st Est]; [lia|].
  destruct (indicators_ok closes i Hi) as (r & m & a & p & Er & Em & Ea & Ep).
  exists st, r, m, a, p. repeat (split; [assumption|]).
  rewrite scan_snoc, Est by lia. cbn [bind].
  rewrite (step_cases closes thr i st r m a p Er Em Ea Ep).
  unfold entry_signal, exit_signal. split; [|split].
  - intros -> -> -> ->. reflexivity.
  - intros -> Hexit.
    replace ((r >? of_int 60)%D || (p <? a)%D) with true
      by (destruct Hexit as [-> | ->]; [reflexivity|now rewrite orb_true_r]).
    reflexivity.
  - intros [[-> ->] | [-> ->]]; reflexivity.
Qed.

(** A run is accounted for index by index: after [n] scanned indices the
    trade count is the number of closed positions, and with the position
    still open it is the number of opened ones. *)
Lemma events_account closes thr (n : nat) :
  26 + Z.of_nat n - 1 < size closes ->
  exists st,
    scan closes thr (26 + Z.of_nat n - 1) = Some st /\
    trades st = count_events closed closes thr n /\
    trades st + (if in_position st then 1 else 0) =
    count_events opened closes thr n.
Proof.
  induction n as [|n IH]; intros Hn.
  - exists initial. split; [apply scan_before; lia|]. cbn. lia.
  - destruct IH as (st & Est & Hc & Ho); [lia|].
    replace (26 + Z.of_nat (S n) - 1) with (26 + Z.of_nat n) in * by lia.
    destruct (indicators_ok closes (26 + Z.of_nat n))
      as (r & m & a & p & Er & Em & Ea & Ep); [lia|].
    assert (Enext : scan closes thr (26 + Z.of_nat n) =
                    step closes thr (26 + Z.of_nat n) st).
    { rewrite scan_snoc, Est by lia. reflexivity. }
    rewrite (step_cases closes thr _ st r m a p Er Em Ea Ep) in Enext.
    eexists. split; [exact Enext|].
    cbn [count_events]. rewrite Est, Enext, <- Hc, <- Ho.
    unfold opened, closed.
    destruct (in_position st) eqn:Hin; cbn [negb andb].
    + destruct (exit_signal r a p); cbn; rewrite ?Hin; cbn; lia.
    + destruct (entry_signal r m a p); cbn; rewrite ?Hin; cbn; lia.
Qed.

(** C2.  When the scan ends with the position still open, the forced close
    books exactly one more trade, priced at the last close of the series,
    with the accounting of a normal exit; the returned [trade_count] is the
    number of exits of the scan plus this forced close, and equals the
    number of positions opened, so every opened position is accounted
    for. *)
Theorem forced_close_accounting candles thr :
  let closes := closes_of candles in
  exists st r,
    scan closes thr (size closes - 1) = Some st /\
    run_strategy candles thr = Some r /\
    (in_position st = true ->
     exists last,
       back closes = Some last /\
       let ret := ((last - entry_price st) / entry_price st)%D in
       final_position candles thr =
       Some {| wins := if (ret >? thr)%D then wins st + 1 else wins st;
               trades := trades st + 1;
               total_return := (total_return st + ret)%D;
               in_position := true; entry_price := entry_price st |} /\
       trade_count r = trades st + 1) /\
    (in_position st = false ->
     final_position candles thr = Some st /\ trade_count r = trades st) /\
    trade_count r = exits closes thr + (if in_position st then 1 else 0) /\
    trade_count r = entries closes thr.
Proof.
  intros closes.
  destruct (Z.lt_ge_cases (size closes) 26) as [Hshort|Hlong].
  - (* No index is scanned. *)
    exists initial, (summarise initial).
    assert (Escan : scan closes thr (size closes - 1) = Some initial)
      by (apply scan_before; lia).
    assert (Efin : final_position candles thr = Some initial).
    { unfold final_position. fold closes. rewrite Escan. reflexivity. }
    split; [exact Escan|]. split.
    { unfold run_strategy. rewrite Efin. reflexivity. }
    split; [discriminate|]. split; [intros _; split; [exact Efin|reflexivity]|].
    unfold exits, entries.
    replace (Z.to_nat (size closes - 26)) with O by lia. cbn. lia.
  - destruct (events_account closes thr (Z.to_nat (size closes - 26)))
      as (st & Est & Hc & Ho); [lia|].
    replace (26 + Z.of_nat (Z.to_nat (size closes - 26)) - 1)
      with (size closes - 1) in Est by lia.
    fold (exits closes thr) in Hc. fold (entries closes thr) in Ho.
    destruct (in_position st) eqn:Hin.
    + pose proof (open_needs_bars closes thr st Est Hin) as Hbars.
      destruct (at_ok closes (size closes - 1)) as [last Elast]; [lia|].
      assert (Efin : final_position candles thr = Some (book thr last st)).
      { unfold final_position. fold closes. rewrite Est. cbn [bind].
        unfold force_close, back. rewrite Hin, Elast. reflexivity. }
      exists st, (summarise (book thr last st)). rewrite Hin.
      split; [exact Est|]. split.
      { unfold run_strategy. rewrite Efin. reflexivity. }
      split.
      { intros _. exists last. split; [exact Elast|]. split.
        - rewrite Efin. unfold book, trade_return. now rewrite Hin.
        - reflexivity. }
      split; [discriminate|]. cbn. lia.
    + assert (Efin : final_position candles thr = Some st).
      { unfold final_position. fold closes. rewrite Est. cbn [bind].
        unfold force_close. now rewrite Hin. }
      exists st, (summarise st). rewrite Hin.
      split; [exact Est|]. split.
      { unfold run_strategy. rewrite Efin. reflexivity. }
      split; [discriminate|].
      split; [intros _; split; [exact Efin|reflexivity]|]. cbn. lia.
Qed.

End StateMachine.

(** ** Results of a run *)

Section RunResults.
Context {D : Type} `{Double D}.
Implicit Types (closes : list D) (candles : list (Candle D))
               (st : Position D) (i hi : Z).

Lemma at_In {A : Type} (v : list A) (j : Z) (x : A) : v @ j = Some x -> In x v.
Proof.
  unfold at_. destruct (j <? 0); [discriminate|]. apply nth_error_In.
Qed.

Lemma entry_fires_signal closes i rsi macd sma20 price :
  calculate_rsi closes i 14 = Some rsi ->
  calculate_macd closes i = Some macd ->
  calculate_sma closes i 20 = Some sma20 ->
  closes @ i = Some price ->
  entry_fires closes i = entry_signal rsi macd sma20 price.
Proof. intros Er Em Ea Ep. unfold entry_fires. now rewrite Er, Em, Ea, Ep. Qed.

(** While the entry condition does not fire the position stays as it
    started. *)
Lemma never_entering closes thr hi :
  hi < size closes ->
  (forall i, 26 <= i <= hi -> entry_fires closes i = false) ->
  scan closes thr hi = Some initial.
Proof.
  intros Hhi Hquiet.
  destruct (scan_total closes thr hi Hhi) as [st Est]. rewrite Est. f_equal.
  destruct (Z.lt_ge_cases hi 26) as [Hlt|Hge].
  - rewrite scan_before in Est by assumption. now inversion Est.
  - apply (for_upto_invariant (fun _ s => s = initial) 26 hi
             (step closes thr) initial st); [lia|reflexivity| |exact Est].
    intros i t t' Hi -> Et.
    destruct (indicators_ok closes i) as (r & m & a & p & Er & Em & Ea & Ep);
      [lia|].
    rewrite (step_cases closes thr i _ r m a p Er Em Ea Ep) in Et.
    rewrite <- (entry_fires_signal closes i r m a p Er Em Ea Ep) in Et.
    rewrite (Hquiet i Hi) in Et. cbn in Et. now inversion Et.
Qed.

Lemma final_counters candles thr :
  exists st, final_position candles thr = Some st /\ 0 <= wins st <= trades st.
Proof.
  unfold final_position. set (closes := closes_of candles).
  destruct (counters_bounded closes thr (size closes - 1)) as (st & Est & Hb);
    [lia|].
  rewrite Est. cbn [bind].
  destruct (force_close_total closes thr st Est) as [st' Ef]. exists st'.
  split; [exact Ef|]. unfold force_close in Ef.
  destruct (in_position st).
  - bind_inv. inversion Ef; subst st'. cbn.
    match goal with |- context [if ?b then _ else _] => destruct b end; lia.
  - inversion Ef; subst st'. lia.
Qed.

(** C3.  With [st] the accumulators when the summary is computed:
    [trade_count] is their trade count; if it is positive then
    [average_return_percent = (total_return / trade_count) * 100] and
    [success_rate = (wins / trade_count) * 100]; if it is zero both are 0;
    and it is zero whenever the entry condition fires at no scanned
    index. *)
Theorem summary_formulas candles thr :
  exists st r,
    final_position candles thr = Some st /\
    run_strategy candles thr = Some r /\
    trade_count r = trades st /\
    0 <= wins st <= trade_count r /\
    (trade_count r > 0 ->
     average_return_percent r =
       (total_return st / of_int (trade_count r) * of_int 100)%D /\
     success_rate r =
       (of_int (wins st) / of_int (trade_count r) * of_int 100)%D) /\
    (trade_count r = 0 ->
     average_return_percent r = of_int 0 /\ success_rate r = of_int 0) /\
    ((forall i, 26 <= i < size candles ->
                entry_fires (closes_of candles) i = false) ->
     trade_count r = 0 /\
     average_return_percent r = of_int 0 /\ success_rate r = of_int 0).
Proof.
  destruct (final_counters candles thr) as (st & Efin & Hb).
  exists st, (summarise st).
  split; [exact Efin|]. split; [unfold run_strategy; now rewrite Efin|].
  split; [reflexivity|]. split; [exact Hb|].
  assert (Hzero : trades st = 0 ->
                  average_return_percent (summarise st) = of_int 0 /\
                  success_rate (summarise st) = of_int 0).
  { intros Hz. cbn. rewrite Hz. cbn. split; reflexivity. }
  split; [|split].
  - cbn. intros Hpos. destruct (Z.eqb_spec (trades st) 0); [lia|].
    split; reflexivity.
  - exact Hzero.
  - intros Hquiet.
    assert (Hz : trades st = 0).
    { unfold final_position in Efin.
      rewrite (never_entering (closes_of candles) thr) in Efin.
      - cbn in Efin. now inversion Efin.
      - lia.
      - intros i Hi. apply Hquiet. rewrite size_closes_of in Hi. lia. }
    split; [exact Hz|]. apply Hzero, Hz.
Qed.

(** C9, as the code has it.  On a series whose closes are all positive,
    whenever the position is open [entry_price] is positive: after the
    scan of any number of indices, and when the summary is computed. *)
Theorem entry_price_positive candles thr :
  (forall c, In c candles -> (close c >? of_int 0)%D = true) ->
  (forall hi, hi < size candles ->
     exists st, scan (closes_of candles) thr hi = Some st /\
                (in_position st = true -> (entry_price st >? of_int 0)%D = true)) /\
  (exists st, final_position candles thr = Some st /\
              (in_position st = true -> (entry_price st >? of_int 0)%D = true)).
Proof.
  intros Hpos.
  assert (Hscan : forall hi, hi < size (closes_of candles) ->
     exists st, scan (closes_of candles) thr hi = Some st /\
                (in_position st = true -> (entry_price st >? of_int 0)%D = true)).
  { intros hi Hhi. apply scan_invariant; [exact Hhi|discriminate|].
    intros i price st Hi Ep Pst. split.
    - intros _ _. cbn. apply at_In in Ep. unfold closes_of in Ep.
      apply in_map_iff in Ep. destruct Ep as (c & <- & Hc). now apply Hpos.
    - intros _. discriminate. }
  split.
  - intros hi Hhi. apply Hscan. now rewrite size_closes_of.
  - unfold final_position.
    destruct (Hscan (size (closes_of candles) - 1)) as (st & Est & Pst); [lia|].
    rewrite Est. cbn [bind].
    destruct (force_close_total _ thr st Est) as [st' Ef]. exists st'.
    split; [exact Ef|]. unfold force_close in Ef.
    destruct (in_position st) eqn:Hin.
    + bind_inv. inversion Ef; subst st'. cbn. intros _. now apply Pst.
    + inversion Ef; subst st'. intros Hopen. congruence.
Qed.

(** C10.  With 26 candles or fewer no index is scanned: the position is
    the initial one after the scan and at the summary (no transition, no
    forced close), and the result is 0 trades, rates 0 and an empty log. *)
Theorem warm_up_only candles thr :
  size candles <= 26 ->
  scan (closes_of candles) thr (size (closes_of candles) - 1) = Some initial /\
  final_position candles thr = Some initial /\
  entries (closes_of candles) thr = 0 /\
  exits (closes_of candles) thr = 0 /\
  run_strategy candles thr =
  Some {| success_rate := of_int 0; average_return_percent := of_int 0;
          trade_count := 0; trade_log := [] |}.
Proof.
  intros Hshort. rewrite <- size_closes_of in Hshort.
  assert (Escan : scan (closes_of candles) thr (size (closes_of candles) - 1)
                  = Some initial) by (apply scan_before; lia).
  assert (Efin : final_position candles thr = Some initial).
  { unfold final_position. rewrite Escan. reflexivity. }
  split; [exact Escan|]. split; [exact Efin|].
  unfold entries, exits, run_strategy.
  replace (Z.to_nat (size (closes_of candles) - 26)) with O by lia.
  rewrite Efin. repeat split.
Qed.

End RunResults.

(** ** Reads of the indicators *)

Lemma slice_prefix {A : Type} (v : list A) (n : nat) (lo hi : Z) :
  0 <= lo -> hi < Z.of_nat n -> slice (firstn n v) lo hi = slice v lo hi.
Proof.
  intros Hlo Hhi. unfold slice.
  rewrite skipn_firstn_comm, firstn_firstn. f_equal. lia.
Qed.

Lemma size_prefix {A : Type} (v : list A) (n : nat) :
  Z.of_nat n <= size v -> size (firstn n v) = Z.of_nat n.
Proof. unfold size. intros Hn. rewrite length_firstn. lia. Qed.

Section ReadBounds.
Context {D : Type} `{Double D}.
Implicit Types (closes : list D) (i : Z).

Lemma rsi_prefix closes i period :
  1 <= period <= i -> i < size closes ->
  calculate_rsi (firstn (Z.to_nat (i + 1)) closes) i period =
  calculate_rsi closes i period.
Proof.
  intros Hp Hi.
  rewrite !rsi_window by (rewrite ?size_prefix; lia).
  cbv zeta. now rewrite slice_prefix by lia.
Qed.

Lemma sma_prefix closes i period :
  1 <= period <= i -> i < size closes ->
  calculate_sma (firstn (Z.to_nat (i + 1)) closes) i period =
  calculate_sma closes i period.
Proof.
  intros Hp Hi.
  rewrite !sma_window by (rewrite ?size_prefix; lia).
  now rewrite slice_prefix by lia.
Qed.

Lemma ema_prefix closes i length :
  1 <= length <= i + 1 -> i < size closes ->
  ema (firstn (Z.to_nat (i + 1)) closes) i length = ema closes i length.
Proof.
  intros Hl Hi. set (seen := firstn (Z.to_nat (i + 1)) closes).
  assert (Hs : size seen = i + 1) by (unfold seen; rewrite size_prefix; lia).
  destruct (ema_window seen i length) as (s1 & E1 & ->); [lia|lia|lia|].
  destruct (ema_window closes i length) as (s2 & E2 & ->); [lia|lia|lia|].
  unfold seen in *. rewrite at_prefix in E1.
  destruct (Z.leb_spec 0 (i - length + 1)); [|lia].
  destruct (Z.ltb_spec (i - length + 1) (Z.of_nat (Z.to_nat (i + 1)))); [|lia].
  cbn [andb] in E1. rewrite slice_prefix by lia. congruence.
Qed.

(** C8.  Every indicator call of [run_strategy] is at an index
    [26 <= i < size].  Run on [seen], the series cut after bar [i], where
    a read outside [0 .. i] faults and faults propagate, each indicator
    still returns, with the value it has on the whole series: no call
    reads before index 0 or after index [i]. *)
Theorem indicator_reads_in_bounds closes i :
  26 <= i < size closes ->
  let seen := firstn (Z.to_nat (i + 1)) closes in
  (forall j, seen @ j = if (0 <=? j) && (j <=? i) then closes @ j else None) /\
  exists rsi ema12 ema26 sma20,
    calculate_rsi seen i 14 = Some rsi /\
    calculate_rsi closes i 14 = Some rsi /\
    ema seen i 12 = Some ema12 /\ ema closes i 12 = Some ema12 /\
    ema seen i 26 = Some ema26 /\ ema closes i 26 = Some ema26 /\
    calculate_macd seen i = Some (ema12 - ema26)%D /\
    calculate_macd closes i = Some (ema12 - ema26)%D /\
    calculate_sma seen i 20 = Some sma20 /\
    calculate_sma closes i 20 = Some sma20.
Proof.
  intros Hi seen. split.
  - intros j. unfold seen. rewrite at_prefix.
    replace (j <? Z.of_nat (Z.to_nat (i + 1))) with (j <=? i); [reflexivity|].
    destruct (Z.leb_spec j i), (Z.ltb_spec j (Z.of_nat (Z.to_nat (i + 1))));
      lia || reflexivity.
  - destruct (ema_window closes i 12) as (s12 & _ & E12); [lia|lia|lia|].
    destruct (ema_window closes i 26) as (s26 & _ & E26); [lia|lia|lia|].
    pose proof (rsi_window closes i 14 ltac:(lia)) as Er. cbv zeta in Er.
    pose proof (sma_window closes i 20 ltac:(lia)) as Ea.
    assert (Ps12 : ema seen i 12 = ema closes i 12) by (apply ema_prefix; lia).
    assert (Ps26 : ema seen i 26 = ema closes i 26) by (apply ema_prefix; lia).
    eexists _, _, _, _.
    split; [unfold seen; rewrite rsi_prefix by lia; exact Er|].
    split; [exact Er|].
    split; [rewrite Ps12; exact E12|]. split; [exact E12|].
    split; [rewrite Ps26; exact E26|]. split; [exact E26|].
    unfold calculate_macd. rewrite Ps12, Ps26, E12, E26. cbn [bind].
    split; [reflexivity|]. split; [reflexivity|].
    split; [unfold seen; rewrite sma_prefix by lia; exact Ea|exact Ea].
Qed.

End ReadBounds.

(** ** RSI in exact arithmetic *)

Section ExactRSI.
Import Exact.
Local Open Scope Q_scope.

Lemma exact_positive (c : Q) : (c >? of_int 0)%D = true -> 0 < c.
Proof.
  intros Hc. change (negb (Qle_bool c 0) = true) in Hc.
  apply negb_true_iff in Hc.
  apply Qnot_le_lt. intros Hle. apply Qle_bool_iff in Hle. congruence.
Qed.

Lemma exact_not_positive (c : Q) : (c >? of_int 0)%D = false -> c <= 0.
Proof.
  intros Hc. change (negb (Qle_bool c 0) = false) in Hc.
  apply negb_false_iff in Hc. now apply Qle_bool_iff.
Qed.

Lemma exact_gain_nonneg (changes : list Q) : 0 <= gain_of changes.
Proof.
  unfold gain_of, rises. rewrite <- fold_left_filter.
  assert (Hacc : forall g : Q, 0 <= g ->
    0 <= fold_left (fun g c => if (c >? of_int 0)%D then (g + c)%D else g)
                   changes g).
  { induction changes as [|c cs IH]; intros g Hg; [exact Hg|].
    cbn [fold_left]. apply IH.
    destruct (c >? of_int 0)%D eqn:Hc; [|exact Hg].
    apply exact_positive in Hc. change (0 <= g + c). lra. }
  apply Hacc. change (0 <= 0). lra.
Qed.

Lemma exact_loss_nonneg (changes : list Q) : 0 <= loss_of changes.
Proof.
  unfold loss_of, falls. rewrite <- fold_left_filter.
  assert (Hacc : forall l : Q, 0 <= l ->
    0 <= fold_left (fun l c => if negb (c >? of_int 0)%D then (l - c)%D else l)
                   changes l).
  { induction changes as [|c cs IH]; intros l Hl; [exact Hl|].
    cbn [fold_left]. apply IH.
    destruct (c >? of_int 0)%D eqn:Hc; [exact Hl|].
    apply exact_not_positive in Hc. change (0 <= l - c). lra. }
  apply Hacc. change (0 <= 0). lra.
Qed.

(** In exact arithmetic subtracting the changes that are not positive adds
    up the absolute values of the negative ones. *)
Lemma exact_loss_magnitudes (changes : list Q) :
  loss_of changes ==
  total (map Qabs (filter (fun c => (c <? of_int 0)%D) changes)).
Proof.
  unfold loss_of, falls, total. rewrite <- fold_left_filter.
  assert (Hacc : forall l1 l2 : Q, l1 == l2 ->
    fold_left (fun l c => if negb (c >? of_int 0)%D then (l - c)%D else l)
              changes l1 ==
    fold_left dadd (map Qabs (filter (fun c => (c <? of_int 0)%D) changes)) l2).
  { induction changes as [|c cs IH]; intros l1 l2 Hl; [exact Hl|].
    cbn [fold_left filter map].
    destruct (c >? of_int 0)%D eqn:Hpos; cbn [negb].
    - apply exact_positive in Hpos.
      replace (c <? of_int 0)%D with false; [now apply IH|].
      symmetry. change (negb (Qle_bool 0 c) = false).
      apply negb_false_iff, Qle_bool_iff. lra.
    - apply exact_not_positive in Hpos.
      destruct (c <? of_int 0)%D eqn:Hneg; cbn [map fold_left]; apply IH.
      + change (l1 - c == l2 + Qabs c). rewrite (Qabs_neg c Hpos), Hl. ring.
      + change (negb (Qle_bool 0 c) = false) in Hneg.
        apply negb_false_iff, Qle_bool_iff in Hneg.
        change (l1 - c == l2). rewrite Hl.
        assert (Hz : c == 0) by lra. rewrite Hz. ring. }
  apply Hacc. reflexivity.
Qed.

Lemma exact_rsi_of_range (gain loss : Q) :
  0 <= gain -> 0 <= loss -> 0 <= rsi_of (gain, loss) <= 100.
Proof.
  intros Hg Hl.
  change (rsi_of (gain, loss))
    with (if Qeq_bool loss 0 then 100 else 100 - 100 / (1 + gain / loss)).
  destruct (Qeq_bool loss 0) eqn:Hz; [lra|].
  assert (Hlpos : 0 < loss).
  { apply Qeq_bool_neq in Hz. apply Qnot_le_lt. intros Hle. apply Hz. lra. }
  assert (Hrs : 0 <= gain / loss).
  { apply Qle_shift_div_l; [exact Hlpos|lra]. }
  assert (Hlow : 0 <= 100 / (1 + gain / loss)).
  { apply Qle_shift_div_l; lra. }
  assert (Hhigh : 100 / (1 + gain / loss) <= 100).
  { apply Qle_shift_div_r; lra. }
  lra.
Qed.

End ExactRSI.

(** ** Rounding in binary64 *)

Section Rounding.

Lemma digits2_bounds (p : positive) :
  2 ^ (Z.pos (digits2_pos p) - 1) <= Z.pos p < 2 ^ Z.pos (digits2_pos p).
Proof.
  induction p as [p IH|p IH|]; cbn [digits2_pos].
  - rewrite Pos2Z.inj_succ. replace (Z.succ (Z.pos (digits2_pos p)) - 1)
      with (Z.succ (Z.pos (digits2_pos p) - 1)) by lia.
    rewrite !Z.pow_succ_r by lia. lia.
  - rewrite Pos2Z.inj_succ. replace (Z.succ (Z.pos (digits2_pos p)) - 1)
      with (Z.succ (Z.pos (digits2_pos p) - 1)) by lia.
    rewrite !Z.pow_succ_r by lia. lia.
  - cbn. lia.
Qed.

Lemma Zdigits2_bounds (m : Z) :
  0 < m -> 2 ^ (Zdigits2 m - 1) <= m < 2 ^ Zdigits2 m.
Proof. destruct m as [|p|p]; try lia. intros _. apply digits2_bounds. Qed.

Lemma Zdigits2_nonneg (m : Z) : 0 <= Zdigits2 m.
Proof. destruct m; cbn; lia. Qed.

(** [m <= b * 2^k] bounds the number of digits of [m]. *)
Lemma Zdigits2_le (m b k : Z) :
  0 <= m -> 0 < b -> 0 <= k -> m <= b * 2 ^ k -> Zdigits2 m <= Zdigits2 b + k.
Proof.
  intros Hm Hb Hk Hle.
  destruct (Z.eq_dec m 0) as [->|Hz].
  { pose proof (Zdigits2_nonneg b). cbn. lia. }
  pose proof (Zdigits2_bounds m ltac:(lia)) as [Hlo _].
  pose proof (Zdigits2_bounds b Hb) as [_ Hhi].
  pose proof (Zdigits2_nonneg b) as Hd.
  assert (Hlt : 2 ^ (Zdigits2 m - 1) < 2 ^ (Zdigits2 b + k)).
  { rewrite Z.pow_add_r by lia.
    assert (0 < 2 ^ k) by (apply Z.pow_pos_nonneg; lia). nia. }
  apply Z.pow_lt_mono_r_iff in Hlt; lia.
Qed.

Lemma shr_1_spec (r : shr_record) :
  0 <= shr_m r ->
  0 <= shr_m (shr_1 r) /\
  shr_m r = 2 * shr_m (shr_1 r) + Z.b2z (shr_r (shr_1 r)) /\
  shr_s (shr_1 r) = inexact r.
Proof.
  destruct r as [[|[p|p|]|p] rr ss]; cbn; intros; try lia; repeat split; lia.
Qed.

Lemma iter_pos_invariant {A : Type} (f : A -> A) (P : Z -> A -> Prop) :
  (forall k x, 0 <= k -> P k x -> P (k + 1) (f x)) ->
  forall p k x, 0 <= k -> P k x -> P (k + Z.pos p) (iter_pos f p x).
Proof.
  intros Hstep. induction p as [p IH|p IH|]; intros k x Hk Hx; cbn [iter_pos].
  - replace (k + Z.pos p~1) with (k + 1 + Z.pos p + Z.pos p) by lia.
    apply IH; [lia|]. apply IH; [lia|]. now apply Hstep.
  - replace (k + Z.pos p~0) with (k + Z.pos p + Z.pos p) by lia.
    apply IH; [lia|]. now apply IH.
  - now apply Hstep.
Qed.

Lemma shifted_step m was k r :
  0 <= k -> shifted_right m was k r -> shifted_right m was (k + 1) (shr_1 r).
Proof.
  intros Hk (H0 & [Hlo Hhi] & Hfl).
  destruct (shr_1_spec r H0) as (H0' & Hm & Hs).
  assert (Hp : 0 < 2 ^ k) by (apply Z.pow_pos_nonneg; lia).
  unfold shifted_right, inexact in *. rewrite Z.pow_add_r, Z.pow_1_r by lia. rewrite Hs.
  destruct (shr_r (shr_1 r)); cbn [Z.b2z orb] in *.
  - split; [lia|]. split; [nia|]. intros _. right. nia.
  - split; [lia|]. split; [nia|]. intros Hi.
    destruct (Hfl Hi) as [|]; [now left|right; nia].
Qed.

Lemma shifted_weaken m (was was' : Prop) n r :
  (was -> was') -> shifted_right m was n r -> shifted_right m was' n r.
Proof.
  unfold shifted_right. tauto.
Qed.

Lemma iter_shr_spec (p : positive) (r : shr_record) :
  0 <= shr_m r ->
  shifted_right (shr_m r) (inexact r = true) (Z.pos p) (iter_pos shr_1 p r).
Proof.
  intros H0.
  apply (iter_pos_invariant shr_1 (shifted_right (shr_m r) (inexact r = true))
           (fun k x Hk => shifted_step _ _ k x Hk) p 0 r); [lia|].
  unfold shifted_right. rewrite Z.pow_0_r. repeat split; try lia. now left.
Qed.

Lemma inexact_of_loc (m : Z) (l : location) :
  shr_m (shr_record_of_loc m l) = m /\
  (inexact (shr_record_of_loc m l) = true -> l <> loc_Exact).
Proof. destruct l as [|[]]; cbn; split; congruence. Qed.

(** The first step of rounding: the mantissa is cut down to the exponent
    [fexp64 (digits + e)] when that is above [e]. *)
Lemma shr_fexp_spec (m e : Z) (l : location) :
  0 <= m ->
  exists n, 0 <= n /\
    snd (shr_fexp prec emax m e l) = e + n /\
    e + n = Z.max e (fexp64 (Zdigits2 m + e)) /\
    shifted_right m (l <> loc_Exact) n (fst (shr_fexp prec emax m e l)).
Proof.
  intros Hm. unfold shr_fexp, shr.
  change (fexp prec emax (Zdigits2 m + e)) with (fexp64 (Zdigits2 m + e)).
  destruct (inexact_of_loc m l) as [Em Hl].
  assert (Hnone : shifted_right m (l <> loc_Exact) 0 (shr_record_of_loc m l)).
  { unfold shifted_right. rewrite Em, Z.pow_0_r. repeat split; try lia.
    intros Hi. left. now apply Hl. }
  destruct (fexp64 (Zdigits2 m + e) - e) as [|p|p] eqn:En.
  - exists 0. cbn [fst snd]. repeat split; try lia; apply Hnone.
  - exists (Z.pos p). cbn [fst snd]. split; [lia|]. split; [reflexivity|].
    split; [lia|].
    pose proof (iter_shr_spec p (shr_record_of_loc m l)) as Hs.
    rewrite Em in Hs. apply (shifted_weaken _ _ _ _ _ Hl). now apply Hs.
  - exists 0. cbn [fst snd]. repeat split; try lia; apply Hnone.
Qed.

Lemma round_nearest_even_spec (r : shr_record) :
  shr_m r <= round_nearest_even (shr_m r) (loc_of_shr_record r) <= shr_m r + 1 /\
  (round_nearest_even (shr_m r) (loc_of_shr_record r) = shr_m r + 1 ->
   inexact r = true).
Proof.
  destruct r as [m [|] [|]]; cbn; try (split; [lia|]; intros; try reflexivity; lia).
  destruct (Z.even m); split; try lia; intros; reflexivity.
Qed.

(** ** Bounds that survive rounding *)

Lemma fexp64_mono (a b : Z) : a <= b -> fexp64 a <= fexp64 b.
Proof. unfold fexp64. lia. Qed.

Lemma shr_fexp_below (b eb m e : Z) (l : location) :
  0 < b -> fexp64 (Zdigits2 b + eb) = eb ->
  0 <= m -> e <= eb -> m <= b * 2 ^ (eb - e) ->
  (l <> loc_Exact -> m < b * 2 ^ (eb - e)) ->
  let r := fst (shr_fexp prec emax m e l) in
  let e' := snd (shr_fexp prec emax m e l) in
  e' <= eb /\ 0 <= shr_m r <= b * 2 ^ (eb - e') /\
  (inexact r = true -> shr_m r < b * 2 ^ (eb - e')).
Proof.
  intros Hb Hcan Hm He Hle Hlt r e'.
  destruct (shr_fexp_spec m e l Hm) as (n & Hn & Ee & Emax & H0 & [Hlo Hhi] & Hfl).
  fold r in H0, Hlo, Hhi, Hfl. fold e' in Ee.
  assert (He' : e' <= eb).
  { rewrite Ee, Emax. apply Z.max_lub; [exact He|]. rewrite <- Hcan.
    apply fexp64_mono.
    pose proof (Zdigits2_le m b (eb - e) Hm Hb ltac:(lia) Hle). lia. }
  assert (Hp : 0 < 2 ^ n) by (apply Z.pow_pos_nonneg; lia).
  assert (Hsplit : b * 2 ^ (eb - e) = b * 2 ^ (eb - e') * 2 ^ n).
  { rewrite <- Z.mul_assoc, <- Z.pow_add_r by lia. do 2 f_equal. lia. }
  rewrite Hsplit in Hle, Hlt.
  split; [exact He'|]. split; [split; [exact H0|nia]|].
  intros Hi. destruct (Hfl Hi) as [Hl|Hs]; [specialize (Hlt Hl)|]; nia.
Qed.

Lemma binary_round_aux_below (b eb m e : Z) (l : location) :
  0 < b -> fexp64 (Zdigits2 b + eb) = eb -> eb <= 971 ->
  0 <= m -> e <= eb -> m <= b * 2 ^ (eb - e) ->
  (l <> loc_Exact -> m < b * 2 ^ (eb - e)) ->
  below b eb (binary_round_aux prec emax false m e l).
Proof.
  intros Hb Hcan Hmax Hm He Hle Hlt. unfold binary_round_aux.
  pose proof (shr_fexp_below b eb m e l Hb Hcan Hm He Hle Hlt) as H1.
  destruct (shr_fexp prec emax m e l) as [r1 e1]. cbn [fst snd] in H1.
  destruct H1 as (He1 & [H10 H1le] & H1lt).
  destruct (round_nearest_even_spec r1) as [[Hr0 Hr1] Hrx].
  set (m1 := round_nearest_even (shr_m r1) (loc_of_shr_record r1)) in *.
  assert (Hm1 : m1 <= b * 2 ^ (eb - e1)).
  { destruct (Z.eq_dec m1 (shr_m r1 + 1)) as [E|]; [|lia].
    specialize (H1lt (Hrx E)). lia. }
  pose proof (shr_fexp_below b eb m1 e1 loc_Exact Hb Hcan ltac:(lia) He1 Hm1
                ltac:(congruence)) as H2.
  destruct (shr_fexp prec emax m1 e1 loc_Exact) as [r2 e2]. cbn [fst snd] in H2.
  destruct H2 as (He2 & [H20 H2le] & _).
  destruct (shr_m r2) as [|p|p]; [exact I| |lia].
  replace (e2 <=? emax - prec) with true; [cbn; now split|].
  symmetry. apply Z.leb_le. change (emax - prec) with 971. lia.
Qed.

Lemma shr_fexp_above (m e : Z) (l : location) :
  0 < m -> 2 ^ (- e) <= m ->
  let r := fst (shr_fexp prec emax m e l) in
  let e' := snd (shr_fexp prec emax m e l) in
  0 < shr_m r /\ 2 ^ (- e') <= shr_m r.
Proof.
  intros Hm Hone r e'.
  destruct (shr_fexp_spec m e l ltac:(lia)) as (n & Hn & Ee & Emax & H0 & [Hlo Hhi] & _).
  fold r in H0, Hlo, Hhi. fold e' in Ee.
  assert (Hp : 0 < 2 ^ n) by (apply Z.pow_pos_nonneg; lia).
  assert (Hbound : 2 ^ (- e') <= shr_m r).
  { destruct (Z.lt_ge_cases (- e') 0) as [Hneg|Hpos].
    - rewrite Z.pow_neg_r by exact Hneg. exact H0.
    - replace (- e) with (- e' + n) in Hone by lia.
      rewrite Z.pow_add_r in Hone by lia.
      assert (0 < 2 ^ (- e')) by (apply Z.pow_pos_nonneg; lia). nia. }
  split; [|exact Hbound].
  destruct (Z.eq_dec n 0) as [->|Hn0]; [rewrite Z.pow_0_r in *; lia|].
  pose proof (Zdigits2_bounds m Hm) as [Hd _].
  unfold fexp64 in Emax.
  destruct (Z.le_ge_cases (-1074) (Zdigits2 m + e - 53)) as [Hnorm|Hsub].
  - assert (En : n = Zdigits2 m - 53) by lia.
    replace (Zdigits2 m - 1) with (52 + n) in Hd by lia.
    rewrite Z.pow_add_r in Hd by lia.
    assert (0 < 2 ^ 52) by (apply Z.pow_pos_nonneg; lia). nia.
  - assert (Ee' : e' = -1074) by lia. rewrite Ee' in Hbound.
    assert (0 < 2 ^ (- -1074)) by (apply Z.pow_pos_nonneg; lia). lia.
Qed.

Lemma binary_round_aux_above (m e : Z) (l : location) :
  0 < m -> 2 ^ (- e) <= m ->
  at_least_one (binary_round_aux prec emax false m e l).
Proof.
  intros Hm Hone. unfold binary_round_aux.
  pose proof (shr_fexp_above m e l Hm Hone) as H1.
  destruct (shr_fexp prec emax m e l) as [r1 e1]. cbn [fst snd] in H1.
  destruct H1 as [H10 H1one].
  pose proof (round_nearest_even_spec r1) as [[Hr0 Hr1] _].
  set (m1 := round_nearest_even (shr_m r1) (loc_of_shr_record r1)) in *.
  pose proof (shr_fexp_above m1 e1 loc_Exact ltac:(lia) ltac:(lia)) as H2.
  destruct (shr_fexp prec emax m1 e1 loc_Exact) as [r2 e2]. cbn [fst snd] in H2.
  destruct H2 as [H20 H2one].
  destruct (shr_m r2) as [|p|p]; [lia| |lia].
  destruct (e2 <=? emax - prec); cbn; [exact H2one|exact I].
Qed.

Lemma binary_round_aux_sign (m e : Z) (l : location) :
  0 <= m -> not_negative (binary_round_aux prec emax false m e l).
Proof.
  intros Hm. unfold binary_round_aux.
  destruct (shr_fexp_spec m e l Hm) as (n1 & _ & _ & _ & H10 & _).
  destruct (shr_fexp prec emax m e l) as [r1 e1]. cbn [fst] in H10.
  destruct (round_nearest_even_spec r1) as [[Hr0 _] _].
  set (m1 := round_nearest_even (shr_m r1) (loc_of_shr_record r1)) in *.
  destruct (shr_fexp_spec m1 e1 loc_Exact ltac:(lia)) as (n2 & _ & _ & _ & H20 & _).
  destruct (shr_fexp prec emax m1 e1 loc_Exact) as [r2 e2]. cbn [fst] in H20.
  destruct (shr_m r2) as [|p|p]; [reflexivity| |lia].
  destruct (e2 <=? emax - prec); reflexivity.
Qed.

Lemma shl_align_spec (mx : positive) (ex ex' : Z) :
  snd (shl_align mx ex ex') = Z.min ex ex' /\
  Z.pos (fst (shl_align mx ex ex')) = Z.pos mx * 2 ^ (ex - Z.min ex ex').
Proof.
  unfold shl_align. destruct (ex' - ex) as [|d|d] eqn:Ed; cbn [fst snd].
  - replace (Z.min ex ex') with ex by lia. rewrite Z.sub_diag. cbn. lia.
  - replace (Z.min ex ex') with ex by lia. rewrite Z.sub_diag. cbn. lia.
  - replace (Z.min ex ex') with ex' by lia.
    replace (ex - ex') with (Z.pos d) by lia.
    change (Pos.iter xO mx d) with (shift_pos d mx).
    rewrite shift_pos_correct. change (Z.pow_pos 2 d) with (2 ^ Z.pos d). lia.
Qed.

Lemma binary_round_below (b eb : Z) (m : positive) (e : Z) :
  0 < b -> fexp64 (Zdigits2 b + eb) = eb -> eb <= 971 ->
  e <= eb -> Z.pos m <= b * 2 ^ (eb - e) ->
  below b eb (binary_round prec emax false m e).
Proof.
  intros Hb Hcan Hmax He Hle. unfold binary_round.
  pose proof (shl_align_spec m e (fexp prec emax (Z.pos (digits2_pos m) + e)))
    as [Es Ef].
  destruct (shl_align m e (fexp prec emax (Z.pos (digits2_pos m) + e)))
    as [mz ez]. cbn [fst snd] in Es, Ef.
  apply binary_round_aux_below; try assumption; try lia; [|congruence].
  rewrite Ef, <- Es.
  replace (eb - ez) with ((eb - e) + (e - ez)) by lia.
  rewrite Z.pow_add_r by lia.
  assert (0 < 2 ^ (e - ez)) by (apply Z.pow_pos_nonneg; lia). nia.
Qed.

Lemma binary_round_above (m : positive) (e : Z) :
  2 ^ (- e) <= Z.pos m -> at_least_one (binary_round prec emax false m e).
Proof.
  intros Hone. unfold binary_round.
  pose proof (shl_align_spec m e (fexp prec emax (Z.pos (digits2_pos m) + e)))
    as [Es Ef].
  destruct (shl_align m e (fexp prec emax (Z.pos (digits2_pos m) + e)))
    as [mz ez]. cbn [fst snd] in Es, Ef.
  apply binary_round_aux_above; [lia|].
  rewrite Ef, <- Es.
  assert (Hp : 0 < 2 ^ (e - ez)) by (apply Z.pow_pos_nonneg; lia).
  destruct (Z.lt_ge_cases (- ez) 0) as [Hneg|Hpos].
  { rewrite Z.pow_neg_r by exact Hneg. lia. }
  destruct (Z.lt_ge_cases (- e) 0) as [Hneg'|Hpos'].
  - assert (2 ^ (- ez) <= 2 ^ (e - ez)) by (apply Z.pow_le_mono_r; lia). nia.
  - replace (- ez) with (- e + (e - ez)) by lia.
    rewrite Z.pow_add_r by lia. nia.
Qed.

Lemma binary_round_sign (m : positive) (e : Z) :
  not_negative (binary_round prec emax false m e).
Proof.
  unfold binary_round.
  destruct (shl_align m e (fexp prec emax (Z.pos (digits2_pos m) + e))) as [mz ez].
  apply binary_round_aux_sign. lia.
Qed.

(** ** The operations of [calculate_rsi] in binary64 *)

Lemma sf_one_eq : Prim2SF 1 = sf_one. Proof. vm_compute. reflexivity. Qed.
Lemma sf_hundred_eq : Prim2SF 100 = sf_hundred. Proof. vm_compute. reflexivity. Qed.
Lemma sf_zero_eq : Prim2SF 0 = S754_zero false. Proof. vm_compute. reflexivity. Qed.

Lemma SFadd_one_above (rs : spec_float) :
  not_negative rs -> at_least_one (SFadd prec emax sf_one rs).
Proof.
  destruct rs as [s|s| |s mr er]; cbn [not_negative]; intros Hs; try subst s;
    try contradiction.
  - cbn. lia.
  - exact I.
  - unfold SFadd, sf_one. cbn [cond_Zopp].
    set (ez := Z.min (-52) er).
    destruct (shl_align_spec 4503599627370496 (-52) ez) as [_ Ea].
    destruct (shl_align_spec mr er ez) as [_ Eb].
    rewrite <- Pos2Z.inj_add. unfold binary_normalize.
    apply binary_round_above. rewrite Pos2Z.inj_add, Ea.
    replace (Z.min (-52) ez) with ez by (unfold ez; lia).
    replace (- ez) with (52 + (-52 - ez)) by lia.
    rewrite Z.pow_add_r by (unfold ez; lia).
    change (2 ^ 52) with 4503599627370496. lia.
Qed.

Lemma new_location_exact (d r : Z) : new_location d r <> loc_Exact -> r <> 0.
Proof.
  intros Hl ->. apply Hl. unfold new_location, new_location_even, new_location_odd.
  destruct (Z.even d); reflexivity.
Qed.

Lemma SFdiv_hundred_below (y : spec_float) :
  at_least_one y -> below 7036874417766400 (-46) (SFdiv prec emax sf_hundred y).
Proof.
  destruct y as [s|[|]| |[|] my ey]; cbn [at_least_one]; intros Hy;
    try contradiction.
  - exact I.
  - unfold SFdiv, sf_hundred, SFdiv_core_binary. cbn [xorb].
    change (Zdigits2 7036874417766400) with 53.
    change (fexp prec emax (53 + -46 - (Zdigits2 (Z.pos my) + ey)))
      with (fexp64 (53 + -46 - (Zdigits2 (Z.pos my) + ey))).
    set (e' := Z.min (fexp64 (53 + -46 - (Zdigits2 (Z.pos my) + ey))) (-46 - ey)).
    set (s := -46 - ey - e').
    pose proof (Zdigits2_bounds (Z.pos my) ltac:(lia)) as [_ Hd].
    assert (Hmag : 1 <= Zdigits2 (Z.pos my) + ey).
    { pose proof (Zdigits2_nonneg (Z.pos my)).
      destruct (Z.lt_ge_cases (- ey) 0) as [|Hpos].
      - cbn [Zdigits2] in *. lia.
      - assert (Hlt : 2 ^ (- ey) < 2 ^ Zdigits2 (Z.pos my)) by lia.
        apply Z.pow_lt_mono_r_iff in Hlt; lia. }
    assert (He' : e' <= -47).
    { unfold e'. pose proof (fexp64_mono (53 + -46 - (Zdigits2 (Z.pos my) + ey)) 6
                               ltac:(lia)) as Hf.
      change (fexp64 6) with (-47) in Hf. lia. }
    assert (Hs : 0 <= s) by (unfold s, e'; lia).
    set (m' := match s with
               | 0 => 7036874417766400
               | Z.pos _ => Z.shiftl 7036874417766400 s
               | Z.neg _ => 0
               end).
    assert (Em' : m' = 7036874417766400 * 2 ^ s).
    { unfold m'. destruct s as [|p|p]; [reflexivity| |lia].
      now rewrite Z.shiftl_mul_pow2 by lia. }
    pose proof (Z_div_mod m' (Z.pos my) ltac:(lia)) as Hdiv.
    destruct (Z.div_eucl m' (Z.pos my)) as [q r]. destruct Hdiv as [Eq Hr].
    assert (Hp : 0 < 2 ^ s) by (apply Z.pow_pos_nonneg; lia).
    assert (Hq : 0 <= q) by nia.
    assert (Hbound : m' <= 7036874417766400 * 2 ^ (-46 - e') * Z.pos my).
    { rewrite Em'. rewrite <- Z.mul_assoc. apply Z.mul_le_mono_nonneg_l; [lia|].
      destruct (Z.lt_ge_cases (- ey) 0) as [Hneg|Hpos].
      - assert (2 ^ s <= 2 ^ (-46 - e')) by (apply Z.pow_le_mono_r; unfold s; lia).
        nia.
      - replace (-46 - e') with (s + ey) by (unfold s; lia).
        assert (E2 : 2 ^ s = 2 ^ (s + ey) * 2 ^ (- ey)).
        { rewrite <- Z.pow_add_r by (unfold s; lia). f_equal. lia. }
        assert (0 < 2 ^ (s + ey)) by (apply Z.pow_pos_nonneg; unfold s; lia).
        nia. }
    apply binary_round_aux_below; try reflexivity; try lia.
    + nia.
    + intros Hl. apply new_location_exact in Hl. nia.
Qed.

Lemma SFsub_hundred_below (z : spec_float) :
  below 7036874417766400 (-46) z ->
  below 7036874417766400 (-46) (SFsub prec emax sf_hundred z).
Proof.
  destruct z as [[|]|s| |[|] mz ez]; cbn [below]; intros Hz; try contradiction.
  - cbn. lia.
  - destruct Hz as [He Hm]. unfold SFsub, sf_hundred. cbn [cond_Zopp].
    replace (Z.min (-46) ez) with ez by lia.
    destruct (shl_align_spec 7036874417766400 (-46) ez) as [_ Ea].
    destruct (shl_align_spec mz ez ez) as [_ Eb].
    rewrite Ea, Eb.
    replace (Z.min (-46) ez) with ez by lia.
    rewrite Z.min_id, Z.sub_diag, Z.pow_0_r, Z.mul_1_r.
    unfold binary_normalize.
    destruct (7036874417766400 * 2 ^ (-46 - ez) - Z.pos mz) as [|p|p] eqn:Ed;
      [exact I| |lia].
    apply binary_round_below; try reflexivity; lia.
Qed.

Lemma below_hundred_range (r : spec_float) :
  below 7036874417766400 (-46) r ->
  SFleb (S754_zero false) r = true /\ SFleb r sf_hundred = true.
Proof.
  destruct r as [[|]|s| |[|] m e]; cbn [below]; intros Hr; try contradiction.
  - split; reflexivity.
  - destruct Hr as [He Hm]. split; [reflexivity|].
    unfold SFleb, SFcompare, sf_hundred.
    destruct (Z.compare_spec e (-46)) as [->|Hlt|Hgt]; [|reflexivity|lia].
    rewrite Z.sub_diag, Z.pow_0_r, Z.mul_1_r in Hm.
    rewrite Pos.compare_cont_spec. cbn [Pos.switch_Eq].
    destruct (Pos.compare_spec m 7036874417766400); try reflexivity. lia.
Qed.

(** ** Signs of sums, differences and quotients *)

Lemma SFadd_not_negative (x c : spec_float) :
  not_negative x -> SFltb (S754_zero false) c = true ->
  not_negative (SFadd prec emax x c).
Proof.
  destruct x as [sx|sx| |sx mx ex]; cbn [not_negative]; intros Hx; try subst sx;
    try contradiction;
    destruct c as [sc|[|]| |[|] mc ec]; intros Hc; try discriminate Hc;
    try reflexivity.
  unfold SFadd. cbn [cond_Zopp]. rewrite <- Pos2Z.inj_add.
  apply binary_round_sign.
Qed.

Lemma SFsub_not_negative (x c : spec_float) :
  not_negative x -> c <> S754_nan -> SFltb (S754_zero false) c = false ->
  not_negative (SFsub prec emax x c).
Proof.
  destruct x as [sx|sx| |sx mx ex]; cbn [not_negative]; intros Hx; try subst sx;
    try contradiction;
    destruct c as [[|]|[|]| |[|] mc ec]; intros Hn Hc; try discriminate Hc;
    try congruence; try reflexivity.
  unfold SFsub. cbn [cond_Zopp].
  match goal with
  | |- context [Z.pos ?a - - Z.pos ?b] =>
      replace (Z.pos a - - Z.pos b) with (Z.pos (a + b)) by lia
  end.
  apply binary_round_sign.
Qed.

(** Subtracting a negative number adds its absolute value. *)
Lemma SFsub_negative (x c : spec_float) :
  SFltb c (S754_zero false) = true ->
  SFsub prec emax x c = SFadd prec emax x (SFabs c).
Proof.
  destruct c as [sc|[|]| |[|] mc ec]; intros Hc; try discriminate Hc;
    destruct x as [[|]|[|]| |sx mx ex]; reflexivity.
Qed.

(** Subtracting a zero from a number that is not [-0] changes nothing. *)
Lemma SFsub_zero (x c : spec_float) :
  x = S754_nan \/ not_negative x ->
  c <> S754_nan ->
  SFltb (S754_zero false) c = false -> SFltb c (S754_zero false) = false ->
  SFsub prec emax x c = x.
Proof.
  intros Hx Hn Hp Hm.
  destruct c as [sc|[|]| |[|] mc ec]; try discriminate; try congruence.
  destruct Hx as [->|Hx]; [reflexivity|].
  destruct x as [sx|sx| |sx mx ex]; cbn [not_negative] in Hx; try subst sx;
    try contradiction; destruct sc; reflexivity.
Qed.

Lemma SFdiv_not_negative (g l : spec_float) :
  not_negative g -> not_negative l -> SFeqb l (S754_zero false) = false ->
  (SFdiv prec emax g l = S754_nan /\
   g = S754_infinity false /\ l = S754_infinity false) \/
  not_negative (SFdiv prec emax g l).
Proof.
  destruct g as [sg|sg| |sg mg eg]; cbn [not_negative]; intros Hg; try subst sg;
    try contradiction;
    destruct l as [sl|sl| |sl ml el]; cbn [not_negative]; intros Hl; try subst sl;
    try contradiction; intros Hz; try discriminate Hz;
    try (right; reflexivity); try (left; repeat split; reflexivity).
  right. unfold SFdiv, SFdiv_core_binary. cbn [xorb].
  set (e' := Z.min _ _). set (s := eg - el - e').
  set (m' := match s with 0 => Z.pos mg | Z.pos _ => Z.shiftl (Z.pos mg) s
             | Z.neg _ => 0 end).
  assert (Hm' : 0 <= m').
  { unfold m'. destruct s; try lia. apply Z.shiftl_nonneg. lia. }
  pose proof (Z_div_mod m' (Z.pos ml) ltac:(lia)) as Hdiv.
  destruct (Z.div_eucl m' (Z.pos ml)) as [q r]. destruct Hdiv as [Eq Hr].
  apply binary_round_aux_sign. nia.
Qed.

(** The last three operations of [calculate_rsi] on a quotient [gain / loss]
    that is not negative. *)
Lemma sf_rsi_range (rs : spec_float) :
  not_negative rs ->
  below 7036874417766400 (-46)
    (SFsub prec emax sf_hundred
       (SFdiv prec emax sf_hundred (SFadd prec emax sf_one rs))).
Proof.
  intros Hrs. apply SFsub_hundred_below, SFdiv_hundred_below, SFadd_one_above, Hrs.
Qed.

End Rounding.

(** ** RSI in IEEE double arithmetic *)

Section Binary64RSI.
Import Binary64.

Lemma float_is_nan (x : float) : Prim2SF x = S754_nan -> x = nan.
Proof. intros E. apply Prim2SF_inj. rewrite E. vm_compute. reflexivity. Qed.

Lemma float_is_infinity (x : float) :
  Prim2SF x = S754_infinity false -> x = infinity.
Proof. intros E. apply Prim2SF_inj. rewrite E. vm_compute. reflexivity. Qed.

Lemma positive_change (c : float) :
  (c >? of_int 0)%D = SFltb (S754_zero false) (Prim2SF c).
Proof. change ((c >? of_int 0)%D) with (PrimFloat.ltb 0 c). now rewrite FloatAxioms.ltb_spec. Qed.

Lemma gain_not_negative (changes : list float) :
  not_negative (Prim2SF (gain_of changes)).
Proof.
  unfold gain_of, rises.
  assert (Hacc : forall g : float, not_negative (Prim2SF g) ->
    not_negative (Prim2SF (fold_left dadd
      (filter (fun c => (c >? of_int 0)%D) changes) g))).
  { induction changes as [|c cs IH]; intros g Hg; [exact Hg|].
    cbn [filter]. destruct (c >? of_int 0)%D eqn:Hc; [|now apply IH].
    cbn [fold_left]. apply IH.
    change (dadd g c) with (PrimFloat.add g c). rewrite FloatAxioms.add_spec.
    apply SFadd_not_negative; [exact Hg|]. now rewrite <- positive_change. }
  apply Hacc. vm_compute. reflexivity.
Qed.

Lemma SFsub_nan_l (c : spec_float) : SFsub prec emax S754_nan c = S754_nan.
Proof. reflexivity. Qed.

Lemma SFsub_nan_r (x : spec_float) : SFsub prec emax x S754_nan = S754_nan.
Proof. now destruct x. Qed.

Lemma loss_not_negative (changes : list float) :
  Prim2SF (loss_of changes) = S754_nan \/
  not_negative (Prim2SF (loss_of changes)).
Proof.
  unfold loss_of, falls.
  assert (Hacc : forall l : float,
    Prim2SF l = S754_nan \/ not_negative (Prim2SF l) ->
    let l' := fold_left dsub
                (filter (fun c => negb (c >? of_int 0)%D) changes) l in
    Prim2SF l' = S754_nan \/ not_negative (Prim2SF l')).
  { induction changes as [|c cs IH]; intros l Hl; [exact Hl|].
    cbn [filter]. destruct (c >? of_int 0)%D eqn:Hc; cbn [negb]; [now apply IH|].
    cbn [fold_left]. apply IH.
    change (dsub l c) with (PrimFloat.sub l c). rewrite FloatAxioms.sub_spec.
    rewrite positive_change in Hc.
    destruct Hl as [->|Hl]; [left; apply SFsub_nan_l|].
    destruct (Prim2SF c) eqn:Ec; try (right; apply SFsub_not_negative;
      [exact Hl|congruence|exact Hc]).
    left. apply SFsub_nan_r. }
  apply Hacc. right. vm_compute. reflexivity.
Qed.

(** The value of [calculate_rsi] from its two sums: between 0 and 100
    unless [loss] is NaN or both sums are infinite. *)
Lemma rsi_of_range (gain loss : float) :
  not_negative (Prim2SF gain) ->
  Prim2SF loss = S754_nan \/ not_negative (Prim2SF loss) ->
  (PrimFloat.leb 0 (rsi_of (gain, loss)) = true /\
   PrimFloat.leb (rsi_of (gain, loss)) 100 = true) \/
  (rsi_of (gain, loss) = nan /\
   (loss = nan \/ (gain = infinity /\ loss = infinity))).
Proof.
  intros Hg Hl.
  change (rsi_of (gain, loss))
    with (if PrimFloat.eqb loss 0 then 100%float
          else (100 - 100 / (1 + gain / loss))%float).
  destruct (PrimFloat.eqb loss 0) eqn:Ez.
  { left. split; vm_compute; reflexivity. }
  rewrite FloatAxioms.eqb_spec, sf_zero_eq in Ez.
  assert (Er : Prim2SF (100 - 100 / (1 + gain / loss))%float =
               SFsub prec emax sf_hundred
                 (SFdiv prec emax sf_hundred
                    (SFadd prec emax sf_one
                       (SFdiv prec emax (Prim2SF gain) (Prim2SF loss))))).
  { rewrite FloatAxioms.sub_spec, FloatAxioms.div_spec, FloatAxioms.add_spec,
      FloatAxioms.div_spec, sf_hundred_eq, sf_one_eq. reflexivity. }
  destruct Hl as [Hnan|Hl].
  { right. split; [|left; now apply float_is_nan].
    apply float_is_nan. rewrite Er, Hnan.
    destruct (Prim2SF gain); reflexivity. }
  destruct (SFdiv_not_negative _ _ Hg Hl Ez) as [(Hd & Eg & El)|Hrs].
  - right. split.
    + apply float_is_nan. rewrite Er, Hd. reflexivity.
    + right. split; now apply float_is_infinity.
  - left. rewrite !FloatAxioms.leb_spec, Er, sf_zero_eq, sf_hundred_eq.
    apply below_hundred_range, sf_rsi_range, Hrs.
Qed.

(** In IEEE double arithmetic [calculate_rsi] returns a value between 0 and
    100, or NaN. *)
Lemma rsi_range_binary64 (closes : list float) (i period : Z) :
  1 <= period -> i < size closes ->
  let changes := day_changes (slice closes (i - period) i) in
  exists r, calculate_rsi closes i period = Some r /\
    ((PrimFloat.leb 0 r = true /\ PrimFloat.leb r 100 = true) \/
     (r = nan /\ period <= i /\
      (loss_of changes = nan \/
       (gain_of changes = infinity /\ loss_of changes = infinity)))).
Proof.
  intros Hp Hi changes.
  destruct (Z.lt_ge_cases i period) as [Hwarm|Hfull].
  - exists 50%float. unfold calculate_rsi.
    destruct (Z.ltb_spec i period); [|lia]. split; [reflexivity|].
    left. split; vm_compute; reflexivity.
  - eexists. split; [apply rsi_window; lia|].
    destruct (rsi_of_range (gain_of changes) (loss_of changes)
                (gain_not_negative _) (loss_not_negative _)) as [H1|[H1 H2]].
    + left. exact H1.
    + right. split; [exact H1|]. split; [lia|exact H2].
Qed.

Lemma negative_change (c : float) :
  (c <? of_int 0)%D = SFltb (Prim2SF c) (S754_zero false).
Proof.
  change ((c <? of_int 0)%D) with (PrimFloat.ltb c 0).
  now rewrite FloatAxioms.ltb_spec.
Qed.

Lemma not_nan_spec (c : float) :
  PrimFloat.is_nan c = false -> Prim2SF c <> S754_nan.
Proof.
  unfold PrimFloat.is_nan. rewrite FloatAxioms.eqb_spec. intros Hc E.
  rewrite E in Hc. discriminate Hc.
Qed.

Lemma positive_not_negative (c : spec_float) :
  SFltb (S754_zero false) c = true -> SFltb c (S754_zero false) = false.
Proof. destruct c as [s|[|]| |[|] m e]; try discriminate; reflexivity. Qed.

(** Without a NaN change, subtracting the changes that are not positive
    adds the absolute values of the negative ones, bit for bit. *)
Lemma loss_as_worded (changes : list float) :
  (forall c, In c changes -> PrimFloat.is_nan c = false) ->
  loss_of changes = loss_as_specified PrimFloat.abs changes.
Proof.
  unfold loss_of, falls, loss_as_specified, total.
  assert (Hacc : forall l : float,
    Prim2SF l = S754_nan \/ not_negative (Prim2SF l) ->
    (forall c, In c changes -> PrimFloat.is_nan c = false) ->
    fold_left dsub (filter (fun c => negb (c >? of_int 0)%D) changes) l =
    fold_left dadd
      (map PrimFloat.abs (filter (fun c => (c <? of_int 0)%D) changes)) l).
  { induction changes as [|c cs IH]; intros l Hl Hall; [reflexivity|].
    assert (Hc : Prim2SF c <> S754_nan) by (apply not_nan_spec, Hall; now left).
    assert (Hcs : forall c', In c' cs -> PrimFloat.is_nan c' = false)
      by (intros c' Hin; apply Hall; now right).
    cbn [filter]. rewrite positive_change, negative_change.
    destruct (SFltb (S754_zero false) (Prim2SF c)) eqn:Hpos; cbn [negb].
    - rewrite (positive_not_negative _ Hpos). now apply IH.
    - destruct (SFltb (Prim2SF c) (S754_zero false)) eqn:Hneg; cbn [map fold_left].
      + assert (E : dsub l c = dadd l (PrimFloat.abs c)).
        { apply Prim2SF_inj.
          change (dsub l c) with (PrimFloat.sub l c).
          change (dadd l (PrimFloat.abs c)) with (PrimFloat.add l (PrimFloat.abs c)).
          rewrite FloatAxioms.sub_spec, FloatAxioms.add_spec, FloatAxioms.abs_spec.
          now apply SFsub_negative. }
        rewrite E. apply IH; [|exact Hcs]. rewrite <- E.
        change (dsub l c) with (PrimFloat.sub l c). rewrite FloatAxioms.sub_spec.
        destruct Hl as [->|Hl]; [left; reflexivity|].
        right. now apply SFsub_not_negative.
      + assert (E : dsub l c = l).
        { apply Prim2SF_inj. change (dsub l c) with (PrimFloat.sub l c).
          rewrite FloatAxioms.sub_spec. now apply SFsub_zero. }
        rewrite E. now apply IH. }
  intros Hall. apply Hacc; [|exact Hall]. right. vm_compute. reflexivity.
Qed.

Lemma rsi_as_worded (closes : list float) (i period : Z) :
  1 <= period /\ period <= i < size closes ->
  (forall c, In c (day_changes (slice closes (i - period) i)) ->
             PrimFloat.is_nan c = false) ->
  calculate_rsi closes i period =
  Some (rsi_as_specified PrimFloat.abs closes i period).
Proof.
  intros Hr Hall. rewrite rsi_window by exact Hr. cbv zeta.
  unfold rsi_as_specified, rsi_of. rewrite <- (loss_as_worded _ Hall).
  reflexivity.
Qed.

(** A NaN loss comes from a NaN change. *)
Lemma loss_nan_source (changes : list float) :
  loss_of changes = nan -> In nan changes.
Proof.
  unfold loss_of, falls.
  assert (Hacc : forall l : float, not_negative (Prim2SF l) ->
    fold_left dsub (filter (fun c => negb (c >? of_int 0)%D) changes) l = nan ->
    In nan changes).
  { induction changes as [|c cs IH]; intros l Hl E.
    - cbn in E. subst l. vm_compute in Hl. contradiction.
    - cbn [filter] in E. rewrite positive_change in E.
      destruct (SFltb (S754_zero false) (Prim2SF c)) eqn:Hpos; cbn [negb] in E.
      + right. now apply (IH l).
      + destruct (Prim2SF c) eqn:Ec;
          try (right; apply (IH (dsub l c)); [|exact E];
               change (dsub l c) with (PrimFloat.sub l c);
               rewrite FloatAxioms.sub_spec;
               apply SFsub_not_negative; [exact Hl|congruence|congruence]).
        left. now apply float_is_nan. }
  apply Hacc. vm_compute. reflexivity.
Qed.

End Binary64RSI.

(** ** RSI as worded, in exact arithmetic *)

Section ExactWording.
Import Exact.
Local Open Scope Q_scope.

Lemma exact_rsi_as_worded (closes : list Q) (i period : Z) :
  (1 <= period /\ period <= i < size closes)%Z ->
  exists r, calculate_rsi closes i period = Some r /\
            r == rsi_as_specified Qabs closes i period.
Proof.
  intros Hr. eexists. split; [apply rsi_window; exact Hr|].
  set (changes := day_changes (slice closes (i - period) i)).
  pose proof (exact_loss_magnitudes changes) as Hl.
  change (rsi_of (gain_of changes, loss_of changes))
    with (if Qeq_bool (loss_of changes) 0 then 100
          else 100 - 100 / (1 + gain_of changes / loss_of changes)).
  change (rsi_as_specified Qabs closes i period)
    with (if Qeq_bool (loss_as_specified Qabs changes) 0 then 100
          else 100 - 100 / (1 + gain_of changes / loss_as_specified Qabs changes)).
  change (total (map Qabs (filter (fun c => (c <? of_int 0)%D) changes)))
    with (loss_as_specified Qabs changes) in Hl.
  destruct (Qeq_bool (loss_of changes) 0) eqn:E1;
    destruct (Qeq_bool (loss_as_specified Qabs changes) 0) eqn:E2.
  - reflexivity.
  - apply Qeq_bool_iff in E1. apply Qeq_bool_neq in E2. exfalso. apply E2.
    now rewrite <- Hl.
  - apply Qeq_bool_iff in E2. apply Qeq_bool_neq in E1. exfalso. apply E1.
    now rewrite Hl.
  - now rewrite Hl.
Qed.

End ExactWording.

(** C4, as the code has it.  Beyond the warm-up ([1 <= period <= i], [i]
    inside the series) [calculate_rsi] works on the bars [i-period .. i]:
    the change of bar [j] is [closes[j] - closes[j-1]] for
    [j = i-period+1 .. i], so the first comparison is against bar
    [i-period]; [gain] is the sum of the positive changes ([gain_of]),
    [loss] is what subtracting every other change from 0 leaves
    ([loss_of]); the result is 100 when [loss == 0] and
    [100 - 100 / (1 + gain / loss)] otherwise.  In IEEE double arithmetic
    this is, bit for bit, the value the specification words
    ([rsi_as_specified]: [loss] the sum of the absolute values of the
    negative changes) whenever no change of the window is NaN; in exact
    arithmetic it always is. *)
Theorem rsi_gain_loss_formula :
  (forall (D : Type) (ops : Double D) (closes : list D) (i period : Z),
      1 <= period <= i -> i < size closes ->
      let changes := day_changes (slice closes (i - period) i) in
      let gain := gain_of changes in
      let loss := loss_of changes in
      size changes = period /\
      (forall j, i - period + 1 <= j <= i ->
         exists cur prev,
           closes @ j = Some cur /\ closes @ (j - 1) = Some prev /\
           changes @ (j - (i - period + 1)) = Some (cur - prev)%D) /\
      calculate_rsi closes i period =
      Some (if (loss =? of_int 0)%D then of_int 100
            else (of_int 100 - of_int 100 / (of_int 1 + gain / loss))%D)) /\
  (forall (closes : list float) (i period : Z),
      1 <= period <= i -> i < size closes ->
      (forall c, In c (@day_changes float Binary64.ops
                         (slice closes (i - period) i)) ->
                 PrimFloat.is_nan c = false) ->
      @calculate_rsi float Binary64.ops closes i period =
      Some (@rsi_as_specified float Binary64.ops PrimFloat.abs closes i period)) /\
  (forall (closes : list Q) (i period : Z),
      1 <= period <= i -> i < size closes ->
      exists r,
        @calculate_rsi Q Exact.ops closes i period = Some r /\
        (r == @rsi_as_specified Q Exact.ops Qabs closes i period)%Q).
Proof.
  split; [|split].
  - intros D ops closes i period Hp Hi.
    destruct (rsi_changes_formula closes i period ltac:(lia)) as (Hs & Hc & Hv).
    split; [apply Hs; lia|]. split; [exact Hc|exact Hv].
  - intros closes i period Hp Hi Hall. apply rsi_as_worded; [lia|exact Hall].
  - intros closes i period Hp Hi. apply exact_rsi_as_worded. lia.
Qed.

(** C5, as the code has it.  For [i < 14], [calculate_rsi] with period 14
    returns exactly 50.0, in every arithmetic.  In IEEE double arithmetic,
    for every series, every period of at least 1 and every index below the
    length, [calculate_rsi] returns a value in [0, 100] or NaN; it returns
    NaN only beyond the warm-up, when a change of the window is NaN or when
    [gain] and [loss] are both infinite.  In exact arithmetic the value is
    in [0, 100]. *)
Theorem rsi_sentinel_and_range :
  (forall (D : Type) (ops : Double D) (closes : list D) (i : Z),
      i < 14 -> calculate_rsi closes i 14 = Some (of_int 50)) /\
  (forall (closes : list float) (i period : Z),
      1 <= period -> i < size closes ->
      let changes :=
        @day_changes float Binary64.ops (slice closes (i - period) i) in
      exists r,
        @calculate_rsi float Binary64.ops closes i period = Some r /\
        ((PrimFloat.leb 0 r = true /\ PrimFloat.leb r 100 = true) \/
         (r = nan /\ period <= i /\
          (In nan changes \/
           (@gain_of float Binary64.ops changes = infinity /\
            @loss_of float Binary64.ops changes = infinity))))) /\
  (forall (closes : list Q) (i period : Z),
      1 <= period -> i < size closes ->
      exists r, @calculate_rsi Q Exact.ops closes i period = Some r /\
                (0 <= r <= 100)%Q).
Proof.
  split; [|split].
  - intros D ops closes i Hi. unfold calculate_rsi.
    destruct (Z.ltb_spec i 14); [reflexivity|lia].
  - intros closes i period Hp Hi changes.
    destruct (rsi_range_binary64 closes i period Hp Hi) as (r & Er & Hr).
    exists r. split; [exact Er|].
    destruct Hr as [Hin|(Hn & Hfull & [Hl|Hboth])]; [now left|right..].
    + split; [exact Hn|]. split; [exact Hfull|]. left.
      now apply loss_nan_source.
    + split; [exact Hn|]. split; [exact Hfull|]. now right.
  - intros closes i period Hp Hi.
    destruct (Z.lt_ge_cases i period) as [Hwarm|Hfull].
    + exists (50%Q). unfold calculate_rsi.
      destruct (Z.ltb_spec i period); [|lia]. split; [reflexivity|lra].
    + eexists. split; [apply rsi_window; lia|].
      apply exact_rsi_of_range; [apply exact_gain_nonneg|apply exact_loss_nonneg].
Qed.

(** ** The theorems at concrete series *)

Ltac in_range := vm_compute; repeat split; easy.

Section Binary64Runs.
Import Binary64 Samples.

(** On [rally] the position opened at index 26 is closed at index 27 by
    the exit rule, as a win. *)
Lemma transitions_at_witness :
  26 <= 27 < size rally /\
  exists st,
    scan rally one_percent 26 = Some st /\ in_position st = true /\
    entry_price st = of_Z 1976 /\
    scan rally one_percent 27 =
    Some {| wins := 1; trades := 1;
            total_return := ((of_Z 2006 - of_Z 1976) / of_Z 1976)%float;
            in_position := false; entry_price := of_Z 1976 |}.
Proof.
  split; [in_range|].
  destruct (transitions_at rally one_percent 27)
    as (st & r & m & a & p & Est & Er & Em & Ea & Ep & _ & Hexit & _);
    [in_range|].
  change (27 - 1) with 26 in Est.
  exists st. split; [exact Est|].
  vm_compute in Est, Er, Ea, Ep.
  injection Est as <-. injection Er as <-. injection Ea as <-. injection Ep as <-.
  split; [reflexivity|]. split; [reflexivity|].
  rewrite Hexit; [reflexivity|reflexivity|left; reflexivity].
Defined.

(** On [held] the indicators at index 26 read nothing outside [0 .. 26]. *)
Lemma indicator_reads_in_bounds_witness :
  26 <= 26 < size held /\
  calculate_rsi (firstn 27 held) 26 14 = calculate_rsi held 26 14 /\
  calculate_macd (firstn 27 held) 26 = calculate_macd held 26 /\
  calculate_sma (firstn 27 held) 26 20 = calculate_sma held 26 20.
Proof.
  split; [in_range|].
  destruct (indicator_reads_in_bounds held 26)
    as (_ & r & e12 & e26 & a & R1 & R2 & _ & _ & _ & _ & M1 & M2 & A1 & A2);
    [in_range|].
  change (Z.to_nat (26 + 1)) with 27%nat in R1, M1, A1.
  rewrite R1, R2, M1, M2, A1, A2. repeat split.
Defined.

(** [held] has positive closes; its position is open after index 26, with
    a positive entry price. *)
Lemma entry_price_positive_witness :
  (forall c, In c (candles_of held) -> (close c >? of_int 0)%D = true) /\
  exists st,
    scan (closes_of (candles_of held)) one_percent 26 = Some st /\
    in_position st = true /\ (entry_price st >? of_int 0)%D = true.
Proof.
  assert (Hpos : forall c, In c (candles_of held) ->
                           (close c >? of_int 0)%D = true).
  { apply Forall_forall. repeat constructor. }
  split; [exact Hpos|].
  destruct (entry_price_positive (candles_of held) one_percent Hpos)
    as [Hscan _].
  destruct (Hscan 26) as (st & Est & Hst); [in_range|].
  exists st. split; [exact Est|].
  assert (Hin : in_position st = true).
  { vm_compute in Est. injection Est as <-. reflexivity. }
  split; [exact Hin|exact (Hst Hin)].
Defined.

(** The first 26 bars of [held] are all warm-up. *)
Lemma warm_up_only_witness :
  size (candles_of (firstn 26 held)) <= 26 /\
  run_strategy (candles_of (firstn 26 held)) one_percent =
  Some {| success_rate := 0%float; average_return_percent := 0%float;
          trade_count := 0; trade_log := [] |}.
Proof.
  split; [in_range|].
  destruct (warm_up_only (candles_of (firstn 26 held)) one_percent)
    as (_ & _ & _ & _ & Erun); [in_range|].
  exact Erun.
Defined.

(** [ema] and [calculate_macd] on [held] at index 26. *)
Lemma ema_macd_contract_witness :
  12 - 1 <= 26 /\ 26 < size held /\ 25 <= 26 /\
  (exists seed,
     held @ 15 = Some seed /\
     ema held 26 12 =
     Some (fold_left (fun ema sample =>
                        (sample * (2 / 13) + ema * (1 - 2 / 13))%float)
                     (slice held 16 26) seed)) /\
  exists ema12 ema26,
    ema held 26 12 = Some ema12 /\ ema held 26 26 = Some ema26 /\
    calculate_macd held 26 = Some (ema12 - ema26)%float.
Proof.
  split; [lia|]. split; [in_range|]. split; [lia|].
  destruct (ema_macd_contract held 26) as [Hema Hmacd]. split.
  - apply (Hema 12); [lia|in_range|in_range].
  - apply Hmacd. in_range.
Defined.

(** IEEE arithmetic: on a series of finite, non-negative closes whose
    gains and losses overflow, [calculate_rsi] returns NaN, which is not in
    [0, 100]. *)
Lemma rsi_overflow_out_of_range :
  exists r,
    calculate_rsi overflowing 14 14 = Some r /\
    PrimFloat.leb 0 r = false /\ PrimFloat.leb r 100 = false.
Proof. exists nan. vm_compute. repeat split. Qed.

(** IEEE arithmetic: on [nan_gap] two changes are NaN.  The code subtracts
    them from [loss] and returns NaN; the sums of the positive changes and
    of the absolute values of the negative changes are both 1, which gives
    50. *)
Lemma rsi_nan_change_differs :
  calculate_rsi GapSamples.nan_gap 4 4 = Some nan /\
  rsi_as_specified PrimFloat.abs GapSamples.nan_gap 4 4 = 50%float.
Proof. vm_compute. split; reflexivity. Qed.

(** A series of negative closes on which the position opens at index 26
    with a negative entry price. *)
Lemma negative_entry_price :
  exists st,
    scan (closes_of (candles_of negative_prices)) one_percent 26 = Some st /\
    in_position st = true /\
    entry_price st = of_Z (-24) /\
    (entry_price st >? of_int 0)%D = false.
Proof. eexists. vm_compute. repeat split. Qed.

End Binary64Runs.

Section ExactRuns.
Import Exact.

(** Both branches of [calculate_sma] on [ramp]. *)
Lemma sma_contract_witness :
  calculate_sma ramp 3 4 = Some (13 # 1)%Q /\
  calculate_sma ramp 15 4 = Some (91 # 4)%Q.
Proof.
  split.
  - rewrite (proj1 (sma_contract ramp 3 4)) by lia. reflexivity.
  - destruct (proj2 (sma_contract ramp 15 4)) as (_ & _ & ->); [lia|in_range|].
    vm_compute. reflexivity.
Defined.

End ExactRuns.

Section MixedRuns.

(** [calculate_rsi] on [ramp] at its last bar, in exact arithmetic, and on
    [held] at index 26, where no change is NaN, in IEEE arithmetic. *)
Lemma rsi_gain_loss_formula_witness :
  @calculate_rsi Q Exact.ops ramp 15 14 = Some (1700 # 21)%Q /\
  @calculate_rsi float Binary64.ops Samples.held 26 14 =
  Some (@rsi_as_specified float Binary64.ops PrimFloat.abs Samples.held 26 14) /\
  exists r, @calculate_rsi Q Exact.ops ramp 15 14 = Some r /\
            (r == @rsi_as_specified Q Exact.ops Qabs ramp 15 14)%Q.
Proof.
  destruct rsi_gain_loss_formula as (Hany & Hfloat & Hexact).
  split; [|split].
  - destruct (Hany Q Exact.ops ramp 15 14) as (_ & _ & ->); [lia|in_range|].
    vm_compute. reflexivity.
  - apply Hfloat; [lia|in_range|].
    apply Forall_forall.
    match goal with
    | |- Forall _ ?l => let l' := eval vm_compute in l in change l with l'
    end.
    repeat (apply Forall_cons; [vm_compute; reflexivity|]). apply Forall_nil.
  - apply Hexact; [lia|in_range].
Defined.

(** The warm-up value on [ramp], a value in range on [held] in IEEE
    arithmetic and a value in range on [ramp] in exact arithmetic. *)
Lemma rsi_sentinel_and_range_witness :
  @calculate_rsi Q Exact.ops ramp 13 14 = Some (inject_Z 50) /\
  (exists r, @calculate_rsi float Binary64.ops Samples.held 26 14 = Some r /\
             PrimFloat.leb 0 r = true /\ PrimFloat.leb r 100 = true) /\
  exists r, @calculate_rsi Q Exact.ops ramp 15 14 = Some r /\ (0 <= r <= 100)%Q.
Proof.
  destruct rsi_sentinel_and_range as (Hwarm & Hfloat & Hexact).
  split; [|split].
  - apply (Hwarm Q Exact.ops). lia.
  - destruct (Hfloat Samples.held 26 14) as (r & Er & [Hin|(Hn & _)]);
      [lia|in_range|exists r; now split|].
    exfalso. subst r.
    apply (f_equal (fun o => match o with
                             | Some x => PrimFloat.is_nan x
                             | None => false
                             end)) in Er.
    vm_compute in Er. discriminate Er.
  - apply Hexact; [lia|in_range].
Defined.

End MixedRuns.

(** * Further properties of the code *)

(** ** Where the indicators read outside the series *)

Section MoreLoops.
Context {S : Type}.
Implicit Types (body : Z -> S -> option S) (s : S) (lo hi i : Z).

(** Two bodies that agree on the scanned indices give the same loop. *)
Lemma for_upto_agree lo hi body body' s :
  (forall j t, lo <= j <= hi -> body j t = body' j t) ->
  for_upto lo hi body s = for_upto lo hi body' s.
Proof.
  intros Hext.
  remember (Z.to_nat (hi + 1 - lo)) as n eqn:Hn.
  revert lo s Hext Hn. induction n as [|n IH]; intros lo s Hext Hn.
  - rewrite !for_upto_nil by lia. reflexivity.
  - rewrite !(for_upto_cons lo hi) by lia. rewrite Hext by lia.
    destruct (body' lo s) as [s1|]; cbn [bind]; [|reflexivity].
    apply IH; [|lia]. intros j t Hj. apply Hext. lia.
Qed.

(** A loop whose last iteration faults, faults. *)
Lemma for_upto_fault lo hi body s :
  lo <= hi -> (forall t, body hi t = None) -> for_upto lo hi body s = None.
Proof.
  intros Hle Hf. rewrite for_upto_snoc by exact Hle.
  destruct (for_upto lo (hi - 1) body s); cbn [bind]; [apply Hf|reflexivity].
Qed.

End MoreLoops.

Lemma at_none {A : Type} (v : list A) (i : Z) :
  v @ i = None <-> i < 0 \/ size v <= i.
Proof.
  split.
  - intros E. destruct (Z.lt_ge_cases i 0) as [|Hi]; [now left|].
    destruct (Z.lt_ge_cases i (size v)) as [Hlt|]; [|now right].
    destruct (at_ok v i) as [x Ex]; [lia|]. congruence.
  - intros Hi. destruct (v @ i) eqn:E; [|reflexivity].
    apply at_inv in E. lia.
Qed.

Section FaultDomains.
Context {D : Type} `{Double D}.
Implicit Types (closes data : list D) (i period length p : Z).

(** X1.  For a period of at least 1, [calculate_rsi] reads outside the
    series exactly when the index is past the warm-up and at or beyond the
    end of the series.  In particular it never reads before index 0, and
    the warm-up value 50 is returned without any read, whatever the
    index. *)
Theorem rsi_fault_domain closes i period :
  1 <= period ->
  (calculate_rsi closes i period = None <-> period <= i /\ size closes <= i).
Proof.
  intros Hpos. split.
  - intros E.
    destruct (Z.lt_ge_cases i period) as [Hw|Hp].
    { unfold calculate_rsi in E. destruct (Z.ltb_spec i period); [discriminate|lia]. }
    destruct (Z.lt_ge_cases i (size closes)) as [Hin|Hout]; [|lia].
    rewrite rsi_window in E by lia. discriminate.
  - intros [Hp Hout]. unfold calculate_rsi.
    destruct (Z.ltb_spec i period); [lia|].
    rewrite for_upto_fault; [reflexivity|lia|].
    intros gl. unfold rsi_body.
    replace (closes @ i) with (@None D) by (symmetry; apply at_none; lia).
    reflexivity.
Qed.

(** X2.  For a period of at least 1, [calculate_sma] reads outside the
    series exactly when the index itself is not an index of the series:
    in the warm-up ([i < p]) it returns [closes[i]] unchecked, and beyond
    it the window [i-p+1 .. i] starts at 1 or later and ends at [i]. *)
Theorem sma_fault_domain closes i p :
  1 <= p ->
  (calculate_sma closes i p = None <-> i < 0 \/ size closes <= i).
Proof.
  intros Hpos. unfold calculate_sma. destruct (Z.ltb_spec i p) as [Hw|Hp].
  - apply at_none.
  - split.
    + intros E. right.
      destruct (Z.lt_ge_cases i (size closes)) as [Hin|Hout]; [|exact Hout].
      rewrite sma_loop in E by lia. discriminate.
    + intros [Hneg|Hout]; [lia|].
      rewrite for_upto_fault; [reflexivity|lia|].
      intros t. unfold sma_body.
      replace (closes @ i) with (@None D) by (symmetry; apply at_none; lia).
      reflexivity.
Qed.

(** The reads of [ema], for any length. *)
Lemma ema_fault_domain_all data i length :
  ema data i length = None <->
  (i - length + 1 < 0 \/ size data <= i - length + 1) \/
  (2 <= length /\ size data <= i).
Proof.
  unfold ema. destruct (data @ (i - length + 1)) as [seed|] eqn:Es; cbn [bind].
  - pose proof (at_inv _ _ _ Es) as Hs. split.
    + intros E. right.
      destruct (Z.lt_ge_cases length 2) as [Hl|Hl].
      { rewrite for_upto_nil in E by lia. discriminate. }
      destruct (Z.lt_ge_cases i (size data)) as [Hin|Hout]; [|lia].
      rewrite ema_loop in E by lia. discriminate.
    + intros [Hbad|[Hl Hout]]; [lia|].
      apply for_upto_fault; [lia|]. intros t. unfold ema_body.
      replace (data @ i) with (@None D) by (symmetry; apply at_none; lia).
      reflexivity.
  - apply at_none in Es. split; [intros _; now left|reflexivity].
Qed.

(** X3.  [ema] has no bounds check: for a length of at least 1 it reads
    outside the data exactly when [i < length - 1] (the seed lies before
    index 0) or [i] is at or beyond the end of the data.  Hence
    [calculate_macd] reads outside the series exactly when [i < 25] or [i]
    is at or beyond its end. *)
Theorem ema_macd_fault_domain data i :
  (forall length, 1 <= length ->
     (ema data i length = None <-> i < length - 1 \/ size data <= i)) /\
  (calculate_macd data i = None <-> i < 25 \/ size data <= i).
Proof.
  assert (Hema : forall length, 1 <= length ->
     (ema data i length = None <-> i < length - 1 \/ size data <= i)).
  { intros length Hl. rewrite ema_fault_domain_all. lia. }
  split; [exact Hema|].
  unfold calculate_macd.
  destruct (ema data i 12) as [e12|] eqn:E12; cbn [bind].
  - destruct (ema data i 26) as [e26|] eqn:E26; cbn [bind].
    + split; [discriminate|]. intros Hbad.
      assert (Hn : ema data i 26 = None) by (apply Hema; lia). congruence.
    + apply Hema in E26; [|lia]. split; [intros _; lia|reflexivity].
  - apply Hema in E12; [|lia]. split; [intros _; lia|reflexivity].
Qed.

End FaultDomains.

(** ** The run as a whole *)

Section RunFacts.
Context {D : Type} `{Double D}.
Implicit Types (closes : list D) (candles : list (Candle D))
               (st : Position D) (i hi : Z).

(** Each trade takes an entry bar and a later exit bar: after the scan of
    the indices [26 .. hi], twice the trades plus the open position fit in
    the number of scanned indices. *)
Lemma scan_pace closes thr hi :
  25 <= hi < size closes ->
  exists st, scan closes thr hi = Some st /\
             0 <= trades st /\ 2 * trades st + open_count st <= hi - 25.
Proof.
  intros Hhi.
  destruct (scan_total closes thr hi) as [st Est]; [lia|]. exists st.
  split; [exact Est|].
  destruct (Z.eq_dec hi 25) as [->|Hne].
  - rewrite scan_before in Est by lia. inversion Est. cbn. lia.
  - replace (hi - 25) with (hi + 1 - 26) by lia.
    apply (for_upto_invariant
             (fun i s => 0 <= trades s /\ 2 * trades s + open_count s <= i - 26)
             26 hi (step closes thr) initial st); [lia|cbn; lia| |exact Est].
    intros i t t' Hi Pt Et.
    destruct (indicators_ok closes i) as (r & m & a & p & Er & Em & Ea & Ep);
      [lia|].
    rewrite (step_cases closes thr i t r m a p Er Em Ea Ep) in Et.
    inversion Et; subst t'; clear Et. unfold open_count in *.
    destruct (in_position t) eqn:Hin.
    + destruct (exit_signal r a p);
        cbn [close_at book trades in_position]; rewrite ?Hin; lia.
    + destruct (entry_signal r m a p);
        cbn [open_at trades in_position]; rewrite ?Hin; lia.
Qed.

(** X4.  On every input [run_strategy] returns (no step of the run reads
    outside the series), with an empty log, with
    [0 <= wins <= trade_count], and with at most one trade per two scanned
    bars: [2 * trade_count <= max(0, size - 26) + 1]. *)
Theorem trade_count_bound candles thr :
  exists st r,
    final_position candles thr = Some st /\
    run_strategy candles thr = Some r /\
    trade_log r = [] /\
    0 <= wins st <= trade_count r /\
    2 * trade_count r <= Z.max 0 (size candles - 26) + 1.
Proof.
  destruct (final_counters candles thr) as (st & Efin & Hw).
  exists st, (summarise st).
  split; [exact Efin|]. split; [unfold run_strategy; now rewrite Efin|].
  split; [reflexivity|]. split; [exact Hw|].
  cbn [summarise trade_count].
  unfold final_position in Efin. rewrite <- size_closes_of.
  set (closes := closes_of candles) in *.
  destruct (Z.lt_ge_cases (size closes) 26) as [Hshort|Hlong].
  - rewrite scan_before in Efin by lia.
    cbn [bind force_close initial in_position] in Efin.
    injection Efin as <-. unfold initial. cbn [trades]. lia.
  - destruct (scan_pace closes thr (size closes - 1)) as (s & Es & H0 & Hp); [lia|].
    rewrite Es in Efin. cbn [bind] in Efin. unfold force_close, open_count in *.
    destruct (in_position s).
    + destruct (back closes); cbn [bind] in Efin; [|discriminate].
      injection Efin as <-. cbn [book trades]. lia.
    + injection Efin as <-. lia.
Qed.

(** Two scans that differ in the threshold only: the positions agree on
    everything but the win count, and the win counts are ordered when the
    thresholds are. *)
Lemma scan_thresholds closes thr1 thr2 hi :
  hi < size closes ->
  exists st1 st2,
    scan closes thr1 hi = Some st1 /\ scan closes thr2 hi = Some st2 /\
    trades st1 = trades st2 /\ total_return st1 = total_return st2 /\
    in_position st1 = in_position st2 /\ entry_price st1 = entry_price st2 /\
    ((forall x, (x >? thr2)%D = true -> (x >? thr1)%D = true) ->
     wins st2 <= wins st1).
Proof.
  intros Hhi.
  destruct (Z.lt_ge_cases hi 26) as [Hlt|Hge].
  { exists initial, initial. rewrite !scan_before by lia.
    repeat split; try reflexivity; try (intros; lia). }
  remember (Z.to_nat (hi - 25)) as n eqn:Hn.
  replace hi with (25 + Z.of_nat n) in * by lia. clear Hn Hge.
  induction n as [|n IH].
  - exists initial, initial. rewrite !scan_before by lia.
    repeat split; try reflexivity; try (intros; lia).
  - destruct IH as (s1 & s2 & E1 & E2 & Ht & Hr & Hi & He & Hw); [lia|].
    replace (25 + Z.of_nat (S n)) with (26 + Z.of_nat n) in * by lia.
    destruct (indicators_ok closes (26 + Z.of_nat n))
      as (r & m & a & p & Er & Em & Ea & Ep); [lia|].
    rewrite !(scan_snoc closes _ (26 + Z.of_nat n)) by lia.
    replace (26 + Z.of_nat n - 1) with (25 + Z.of_nat n) by lia.
    rewrite E1, E2. cbn [bind].
    rewrite !(step_cases closes _ _ _ r m a p Er Em Ea Ep).
    eexists _, _. split; [reflexivity|]. split; [reflexivity|].
    rewrite <- Hi.
    destruct (in_position s1) eqn:Hin.
    + destruct (exit_signal r a p).
      * unfold close_at, book, trade_return. cbn. rewrite <- He, <- Hr, <- Ht.
        repeat split; try reflexivity. intros Hmono. specialize (Hw Hmono).
        destruct ((p - entry_price s1) / entry_price s1 >? thr2)%D eqn:H2.
        -- rewrite (Hmono _ H2). lia.
        -- destruct ((p - entry_price s1) / entry_price s1 >? thr1)%D; lia.
      * repeat split; first [assumption|reflexivity|congruence|intros; auto].
    + destruct (entry_signal r m a p).
      * cbn. repeat split; first [assumption|reflexivity|congruence|intros; auto].
      * repeat split; first [assumption|reflexivity|congruence|intros; auto].
Qed.

Lemma final_thresholds candles thr1 thr2 :
  exists st1 st2,
    final_position candles thr1 = Some st1 /\
    final_position candles thr2 = Some st2 /\
    trades st1 = trades st2 /\ total_return st1 = total_return st2 /\
    ((forall x, (x >? thr2)%D = true -> (x >? thr1)%D = true) ->
     wins st2 <= wins st1).
Proof.
  unfold final_position. set (closes := closes_of candles).
  destruct (scan_thresholds closes thr1 thr2 (size closes - 1))
    as (s1 & s2 & E1 & E2 & Ht & Hr & Hi & He & Hw); [lia|].
  rewrite E1, E2. cbn [bind]. unfold force_close. rewrite <- Hi.
  destruct (in_position s1) eqn:Hin.
  - pose proof (open_needs_bars closes thr1 s1 E1 Hin) as Hbars.
    destruct (at_ok closes (size closes - 1)) as [last El]; [lia|].
    unfold back. rewrite El. cbn [bind].
    eexists _, _. split; [reflexivity|]. split; [reflexivity|].
    unfold book, trade_return. cbn. rewrite <- He, <- Hr, <- Ht.
    repeat split; try reflexivity. intros Hmono. specialize (Hw Hmono).
    destruct ((last - entry_price s1) / entry_price s1 >? thr2)%D eqn:H2.
    + rewrite (Hmono _ H2). lia.
    + destruct ((last - entry_price s1) / entry_price s1 >? thr1)%D; lia.
  - exists s1, s2.
    repeat split; first [assumption|reflexivity|congruence|intros; auto].
Qed.

(** X5.  [profit_threshold] is used to count wins and for nothing else:
    two runs on the same candles with different thresholds return the same
    [trade_count] and the same [average_return_percent]. *)
Theorem threshold_only_moves_wins candles thr1 thr2 :
  exists r1 r2,
    run_strategy candles thr1 = Some r1 /\
    run_strategy candles thr2 = Some r2 /\
    trade_count r1 = trade_count r2 /\
    average_return_percent r1 = average_return_percent r2.
Proof.
  destruct (final_thresholds candles thr1 thr2)
    as (s1 & s2 & E1 & E2 & Ht & Hr & _).
  exists (summarise s1), (summarise s2). unfold run_strategy.
  rewrite E1, E2. cbn. rewrite Ht, Hr. repeat split.
Qed.

End RunFacts.

(** ** No lookahead, bounded lookback *)

Lemma slice_skip {A : Type} (v : list A) (lo hi k : Z) :
  0 <= lo -> 0 <= k ->
  slice v (lo + k) hi = skipn (Z.to_nat k) (slice v lo hi).
Proof.
  intros Hlo Hk. unfold slice.
  rewrite skipn_firstn_comm, skipn_skipn. f_equal; [lia|]. f_equal. lia.
Qed.

Section Causality.
Context {D : Type} `{Double D}.
Implicit Types (closes : list D) (i j hi : Z).

Lemma prefix_prefix closes (n : nat) j :
  j < Z.of_nat n ->
  firstn (Z.to_nat (j + 1)) (firstn n closes) = firstn (Z.to_nat (j + 1)) closes.
Proof. intros Hj. rewrite firstn_firstn. f_equal. lia. Qed.

(** The body of the scan at index [j] on the first [n > j] bars. *)
Lemma step_prefix closes (n : nat) thr j st :
  26 <= j < Z.of_nat n -> Z.of_nat n <= size closes ->
  step (firstn n closes) thr j st = step closes thr j st.
Proof.
  intros Hj Hn.
  assert (Hs : size (firstn n closes) = Z.of_nat n) by (apply size_prefix; lia).
  assert (Er : calculate_rsi (firstn n closes) j 14 = calculate_rsi closes j 14).
  { rewrite <- (rsi_prefix (firstn n closes)), prefix_prefix by lia.
    apply rsi_prefix; lia. }
  assert (Ea : calculate_sma (firstn n closes) j 20 = calculate_sma closes j 20).
  { rewrite <- (sma_prefix (firstn n closes)), prefix_prefix by lia.
    apply sma_prefix; lia. }
  assert (Ee : forall length, 1 <= length <= 26 ->
             ema (firstn n closes) j length = ema closes j length).
  { intros length Hl.
    rewrite <- (ema_prefix (firstn n closes)), prefix_prefix by lia.
    apply ema_prefix; lia. }
  assert (Ep : firstn n closes @ j = closes @ j).
  { rewrite at_prefix. destruct (Z.leb_spec 0 j), (Z.ltb_spec j (Z.of_nat n));
      try lia. reflexivity. }
  unfold step, calculate_macd. rewrite Er, Ea, !Ee, Ep by lia. reflexivity.
Qed.

Lemma scan_prefix closes (n : nat) thr hi :
  hi < Z.of_nat n -> Z.of_nat n <= size closes ->
  scan (firstn n closes) thr hi = scan closes thr hi.
Proof.
  intros Hhi Hn. unfold scan. apply for_upto_agree.
  intros j t Hj. apply step_prefix; lia.
Qed.

(** X6.  The scan has no lookahead: the position reached after bar [i]
    (trades, wins, total return, open or flat, entry price) is the same
    whatever bars follow the series. *)
Theorem scan_ignores_later_bars closes later thr i :
  i < size closes ->
  scan (closes ++ later) thr i = scan closes thr i.
Proof.
  intros Hi.
  rewrite <- (scan_prefix (closes ++ later) (length closes)).
  - rewrite firstn_app, Nat.sub_diag, firstn_all. cbn [firstn].
    now rewrite app_nil_r.
  - exact Hi.
  - unfold size. rewrite length_app. lia.
Qed.

(** X7.  From index 25 on, the three indicators the strategy consults are
    functions of the 26 most recent bars: two series, at two indices, whose
    26 bars up to the index are the same give the same RSI(14), MACD and
    SMA(20). *)
Theorem indicators_see_26_bars (a b : list D) i j :
  25 <= i < size a -> 25 <= j < size b ->
  slice a (i - 25) i = slice b (j - 25) j ->
  calculate_rsi a i 14 = calculate_rsi b j 14 /\
  calculate_macd a i = calculate_macd b j /\
  calculate_sma a i 20 = calculate_sma b j 20.
Proof.
  intros Hi Hj Hwin.
  assert (Hsub : forall k, 0 <= k ->
            slice a (i - 25 + k) i = slice b (j - 25 + k) j).
  { intros k Hk. rewrite !slice_skip by lia. now rewrite Hwin. }
  assert (Hema : forall length, 2 <= length <= 26 ->
            ema a i length = ema b j length).
  { intros length Hl.
    destruct (ema_window a i length) as (sa & Esa & ->); [lia|lia|lia|].
    destruct (ema_window b j length) as (sb & Esb & ->); [lia|lia|lia|].
    pose proof (Hsub (26 - length) ltac:(lia)) as Hs.
    replace (i - 25 + (26 - length)) with (i - length + 1) in Hs by lia.
    replace (j - 25 + (26 - length)) with (j - length + 1) in Hs by lia.
    rewrite (slice_cons a _ i sa) in Hs by (lia || assumption).
    rewrite (slice_cons b _ j sb) in Hs by (lia || assumption).
    injection Hs as -> Ht.
    replace (i - length + 1 + 1) with (i - length + 2) in Ht by lia.
    replace (j - length + 1 + 1) with (j - length + 2) in Ht by lia.
    now rewrite Ht. }
  split; [|split].
  - rewrite !rsi_window by lia. cbv zeta.
    pose proof (Hsub 11 ltac:(lia)) as Hs.
    replace (i - 25 + 11) with (i - 14) in Hs by lia.
    replace (j - 25 + 11) with (j - 14) in Hs by lia. now rewrite Hs.
  - unfold calculate_macd. now rewrite !Hema by lia.
  - rewrite !sma_window by lia.
    pose proof (Hsub 6 ltac:(lia)) as Hs.
    replace (i - 25 + 6) with (i - 20 + 1) in Hs by lia.
    replace (j - 25 + 6) with (j - 20 + 1) in Hs by lia. now rewrite Hs.
Qed.

End Causality.

(** ** Indicators in exact arithmetic *)

Section ExactIndicators.
Import Exact.
Local Open Scope Q_scope.

Lemma exact_lt (x y : Q) : (x <? y)%D = true <-> x < y.
Proof.
  change ((x <? y)%D) with (negb (Qle_bool y x)). rewrite negb_true_iff.
  split.
  - intros Hb. apply Qnot_le_lt. intros Hle. apply Qle_bool_iff in Hle. congruence.
  - intros Hlt. destruct (Qle_bool y x) eqn:E; [|reflexivity].
    apply Qle_bool_iff in E. lra.
Qed.

Lemma exact_lt_false (x y : Q) : (x <? y)%D = false <-> y <= x.
Proof.
  change ((x <? y)%D) with (negb (Qle_bool y x)). rewrite negb_false_iff.
  apply Qle_bool_iff.
Qed.

Lemma rising_tail (a : Q) (l : list Q) : rising (a :: l) -> rising l.
Proof. destruct l as [|b l]; [trivial|]. intros [_ Hr]. exact Hr. Qed.

Lemma rising_skipn (n : nat) (l : list Q) : rising l -> rising (skipn n l).
Proof.
  revert l. induction n as [|n IH]; intros l Hr; [exact Hr|].
  destruct l as [|a l]; [exact I|]. cbn [skipn]. apply IH.
  now apply rising_tail in Hr.
Qed.

Lemma rising_firstn (n : nat) (l : list Q) : rising l -> rising (firstn n l).
Proof.
  revert l. induction n as [|n IH]; intros l Hr; [exact I|].
  destruct l as [|a l]; [exact I|]. cbn [firstn].
  destruct l as [|b l]; [destruct n; exact I|].
  destruct Hr as [Hab Hr]. specialize (IH (b :: l) Hr).
  destruct n as [|n]; [exact I|]. cbn [firstn] in *. split; assumption.
Qed.

Lemma rising_slice (l : list Q) (lo hi : Z) : rising l -> rising (slice l lo hi).
Proof. intros Hr. unfold slice. now apply rising_firstn, rising_skipn. Qed.

Lemma falling_tail (a : Q) (l : list Q) : falling (a :: l) -> falling l.
Proof. destruct l as [|b l]; [trivial|]. intros [_ Hf]. exact Hf. Qed.

Lemma falling_skipn (n : nat) (l : list Q) : falling l -> falling (skipn n l).
Proof.
  revert l. induction n as [|n IH]; intros l Hf; [exact Hf|].
  destruct l as [|a l]; [exact I|]. cbn [skipn]. apply IH.
  now apply falling_tail in Hf.
Qed.

Lemma falling_firstn (n : nat) (l : list Q) : falling l -> falling (firstn n l).
Proof.
  revert l. induction n as [|n IH]; intros l Hf; [exact I|].
  destruct l as [|a l]; [exact I|]. cbn [firstn].
  destruct l as [|b l]; [destruct n; exact I|].
  destruct Hf as [Hab Hf]. specialize (IH (b :: l) Hf).
  destruct n as [|n]; [exact I|]. cbn [firstn] in *. split; assumption.
Qed.

Lemma falling_slice (l : list Q) (lo hi : Z) : falling l -> falling (slice l lo hi).
Proof. intros Hf. unfold slice. now apply falling_firstn, falling_skipn. Qed.

Lemma rising_changes (bars : list Q) :
  rising bars -> Forall (fun c => 0 <= c) (day_changes bars).
Proof.
  induction bars as [|a [|b r] IH]; intros Hr; try constructor.
  - destruct Hr as [Hab _]. change (0 <= b - a). lra.
  - apply IH. now apply rising_tail in Hr.
Qed.

Lemma falling_changes (bars : list Q) :
  falling bars -> Forall (fun c => c < 0) (day_changes bars).
Proof.
  induction bars as [|a [|b r] IH]; intros Hf; try constructor.
  - destruct Hf as [Hab _]. change (b - a < 0). lra.
  - apply IH. destruct Hf as [_ Hf]. exact Hf.
Qed.

Lemma no_fall_no_loss (changes : list Q) :
  Forall (fun c => 0 <= c) changes -> loss_of changes == 0.
Proof.
  intros Hall. rewrite exact_loss_magnitudes.
  replace (filter (fun c => (c <? of_int 0)%D) changes) with (@nil Q);
    [reflexivity|].
  symmetry. induction Hall as [|c cs Hc _ IH]; [reflexivity|].
  cbn [filter]. replace (c <? of_int 0)%D with false; [exact IH|].
  symmetry. apply exact_lt_false. exact Hc.
Qed.

Lemma no_rise_no_gain (changes : list Q) :
  Forall (fun c => c < 0) changes -> gain_of changes = 0.
Proof.
  intros Hall. unfold gain_of, rises.
  replace (filter (fun c => (c >? of_int 0)%D) changes) with (@nil Q);
    [reflexivity|].
  symmetry. induction Hall as [|c cs Hc _ IH]; [reflexivity|].
  cbn [filter]. replace (c >? of_int 0)%D with false; [exact IH|].
  symmetry. apply exact_lt_false. change (c <= 0). lra.
Qed.

Lemma sum_from (l : list Q) (a : Q) :
  Forall (fun x => 0 < x) l -> a <= fold_left Qplus l a /\
  (l <> [] -> a < fold_left Qplus l a).
Proof.
  intros Hall. revert a. induction Hall as [|x xs Hx _ IH]; intros a.
  - split; [cbn; lra|congruence].
  - cbn [fold_left]. destruct (IH (a + x)) as [Hle _]. split; [lra|intros _; lra].
Qed.

Lemma all_falls_loss (changes : list Q) :
  Forall (fun c => c < 0) changes -> changes <> [] -> 0 < loss_of changes.
Proof.
  intros Hall Hne. rewrite exact_loss_magnitudes.
  replace (filter (fun c => (c <? of_int 0)%D) changes) with changes.
  - apply (sum_from (map Qabs changes) 0).
    + clear Hne. induction Hall as [|c cs Hc _ IH]; constructor; [|exact IH].
      rewrite Qabs_neg by lra. lra.
    + destruct changes; [congruence|discriminate].
  - clear Hne. induction Hall as [|c cs Hc _ IH]; [reflexivity|].
    cbn [filter]. replace (c <? of_int 0)%D with true; [now rewrite <- IH|].
    symmetry. apply exact_lt. exact Hc.
Qed.

(** Without a negative change the loss is zero and the value is 100. *)
Lemma exact_rsi_without_loss (changes : list Q) :
  Forall (fun c => 0 <= c) changes ->
  rsi_of (gain_of changes, loss_of changes) = inject_Z 100.
Proof.
  intros Hall. pose proof (no_fall_no_loss changes Hall) as Hl.
  change (rsi_of (gain_of changes, loss_of changes))
    with (if Qeq_bool (loss_of changes) 0 then inject_Z 100
          else 100 - 100 / (1 + gain_of changes / loss_of changes)).
  now rewrite (Qeq_eq_bool _ _ Hl).
Qed.

(** X8.  In exact arithmetic, for a period of at least 1, on a window in
    which no bar is below the bar before (a rising or a completely flat
    window) [calculate_rsi] returns exactly 100: flat bars count as no
    loss. *)
Theorem rsi_rising_is_100 (closes : list Q) (i period : Z) :
  (1 <= period <= i)%Z -> (i < size closes)%Z ->
  rising (slice closes (i - period) i) ->
  calculate_rsi closes i period = Some (inject_Z 100).
Proof.
  intros Hp Hi Hup. rewrite rsi_window by lia. cbv zeta. f_equal.
  apply exact_rsi_without_loss, rising_changes, Hup.
Qed.

(** X9.  In exact arithmetic, on a window of [period >= 1] changes in which
    every bar is strictly below the bar before, [calculate_rsi] returns
    0. *)
Theorem rsi_falling_is_0 (closes : list Q) (i period : Z) :
  (1 <= period <= i)%Z -> (i < size closes)%Z ->
  falling (slice closes (i - period) i) ->
  exists r, calculate_rsi closes i period = Some r /\ r == 0.
Proof.
  intros Hp Hi Hdown. rewrite rsi_window by lia. cbv zeta.
  set (changes := day_changes (slice closes (i - period) i)).
  eexists. split; [reflexivity|].
  assert (Hall : Forall (fun c => c < 0) changes) by apply falling_changes, Hdown.
  assert (Hne : changes <> []).
  { intros E. apply (f_equal (@length Q)) in E. unfold changes in E.
    rewrite day_changes_length, slice_length in E by lia. cbn in E. lia. }
  pose proof (all_falls_loss changes Hall Hne) as Hl.
  rewrite (no_rise_no_gain changes Hall).
  change (rsi_of (0, loss_of changes))
    with (if Qeq_bool (loss_of changes) 0 then inject_Z 100
          else 100 - 100 / (1 + 0 / loss_of changes)).
  destruct (Qeq_bool (loss_of changes) 0) eqn:Ez.
  - apply Qeq_bool_eq in Ez. lra.
  - field. lra.
Qed.

End ExactIndicators.

(** ** Averages in exact arithmetic *)

Section ExactAverages.
Import Exact.
Local Open Scope Q_scope.

Lemma sum_in_range (lo hi : Q) (l : list Q) (a : Q) :
  Forall (fun x => lo <= x <= hi) l ->
  a + inject_Z (size l) * lo <= fold_left Qplus l a <=
  a + inject_Z (size l) * hi.
Proof.
  intros Hall. revert a. induction Hall as [|x xs Hx _ IH]; intros a.
  - change (a + 0 * lo <= a <= a + 0 * hi). lra.
  - cbn [fold_left]. specialize (IH (a + x)).
    replace (size (x :: xs)) with (size xs + 1)%Z by (unfold size; cbn [length]; lia).
    rewrite inject_Z_plus. change (inject_Z 1) with 1. lra.
Qed.

(** The sum of [p >= 1] values of a range, divided by [p], is in the range. *)
Lemma exact_mean_range (lo hi : Q) (window : list Q) (p : Z) :
  (1 <= p)%Z -> size window = p ->
  Forall (fun x => lo <= x <= hi) window ->
  lo <= total window / inject_Z p <= hi.
Proof.
  intros Hp Hs Hall.
  pose proof (sum_in_range lo hi window 0 Hall) as Hsum. rewrite Hs in Hsum.
  assert (Hp' : 0 < inject_Z p)
    by (change 0 with (inject_Z 0); rewrite <- Zlt_Qlt; lia).
  change (lo <= fold_left Qplus window 0 / inject_Z p <= hi).
  split; [apply Qle_shift_div_l|apply Qle_shift_div_r]; try exact Hp'; lra.
Qed.





End ExactAverages.

(** ** Runs in exact arithmetic *)

Section ExactRunFacts.
Import Exact.
Local Open Scope Q_scope.

Lemma exact_quiet_when_rising (closes : list Q) (i : Z) :
  (26 <= i < size closes)%Z -> rising closes -> entry_fires closes i = false.
Proof.
  intros Hi Hup.
  destruct (indicators_ok closes i Hi) as (r & m & a & p & Er & Em & Ea & Ep).
  rewrite (entry_fires_signal closes i r m a p Er Em Ea Ep).
  rewrite rsi_window in Er by lia. cbv zeta in Er.
  rewrite exact_rsi_without_loss in Er
    by (apply rising_changes; now apply rising_slice).
  injection Er as <-. reflexivity.
Qed.

(** In a falling run every bar is at least the last one. *)
Lemma falling_above_last (l : list Q) (z : Q) :
  falling (l ++ [z]) -> Forall (fun x => z <= x <= hd z l) (l ++ [z]).
Proof.
  induction l as [|a l IH]; intros Hf.
  - cbn. constructor; [lra|constructor].
  - cbn [app] in *. specialize (IH (falling_tail _ _ Hf)).
    assert (Hza : z <= a).
    { destruct l as [|b l]; cbn [app] in *.
      - destruct Hf as [Hlt _]. lra.
      - destruct Hf as [Hlt _]. inversion IH as [|? ? Hb _]; subst.
        cbn [hd] in Hb. lra. }
    constructor; [cbn [hd]; lra|].
    eapply Forall_impl; [|exact IH]. cbn beta. intros x [Hx1 Hx2].
    split; [exact Hx1|]. cbn [hd].
    destruct l as [|b l]; cbn [hd app] in *; [lra|].
    destruct Hf as [Hlt _]. lra.
Qed.

Lemma slice_snoc (v : list Q) (lo hi : Z) (x : Q) :
  (0 <= lo <= hi)%Z -> v @ hi = Some x ->
  slice v lo hi = slice v lo (hi - 1) ++ [x].
Proof.
  intros Hr Ex. pose proof (at_inv _ _ _ Ex) as Hhi.
  remember (Z.to_nat (hi - lo)) as n eqn:Hn.
  revert lo Hr Hn. induction n as [|n IH]; intros lo Hr Hn.
  - assert (lo = hi) by lia. subst lo.
    rewrite (slice_cons v hi hi x) by (lia || assumption).
    rewrite !slice_nil by lia. reflexivity.
  - destruct (at_ok v lo) as [y Ey]; [lia|].
    rewrite (slice_cons v lo hi y), (slice_cons v lo (hi - 1) y)
      by (lia || assumption).
    cbn [app]. f_equal. apply IH; lia.
Qed.

Lemma exact_quiet_when_falling (closes : list Q) (i : Z) :
  (26 <= i < size closes)%Z -> falling closes -> entry_fires closes i = false.
Proof.
  intros Hi Hdown.
  destruct (indicators_ok closes i Hi) as (r & m & a & p & Er & Em & Ea & Ep).
  rewrite (entry_fires_signal closes i r m a p Er Em Ea Ep).
  set (top := hd p (slice closes (i - 20 + 1) (i - 1))).
  assert (Hwin : Forall (fun x => p <= x <= top) (slice closes (i - 20 + 1) i)).
  { unfold top. rewrite (slice_snoc closes (i - 20 + 1) i p) by (lia || assumption).
    apply falling_above_last.
    rewrite <- (slice_snoc closes (i - 20 + 1) i p) by (lia || assumption).
    now apply falling_slice. }
  rewrite sma_window in Ea by lia. injection Ea as <-.
  pose proof (exact_mean_range p top (slice closes (i - 20 + 1) i) 20
                ltac:(lia) ltac:(rewrite slice_size; lia) Hwin) as Hm.
  unfold entry_signal.
  rewrite (proj2 (exact_lt_false _ p) (proj1 Hm)). apply andb_false_r.
Qed.

(** X12.  In exact arithmetic the strategy makes no trade on a series that
    never falls (rising or flat): RSI is 100 at every scanned bar, never
    below 30. *)
Theorem rising_market_no_trades (candles : list (Candle Q)) (thr : Q) :
  rising (closes_of candles) ->
  run_strategy candles thr =
  Some {| success_rate := 0; average_return_percent := 0;
          trade_count := 0; trade_log := [] |}.
Proof.
  intros Hup. unfold run_strategy, final_position.
  rewrite (never_entering (closes_of candles) thr); [reflexivity|lia|].
  intros i Hi. apply exact_quiet_when_rising; [lia|exact Hup].
Qed.

(** X13.  In exact arithmetic the strategy makes no trade on a strictly
    falling series either: the close is the lowest of its last 20 bars, so
    never above their average. *)
Theorem falling_market_no_trades (candles : list (Candle Q)) (thr : Q) :
  falling (closes_of candles) ->
  run_strategy candles thr =
  Some {| success_rate := 0; average_return_percent := 0;
          trade_count := 0; trade_log := [] |}.
Proof.
  intros Hdown. unfold run_strategy, final_position.
  rewrite (never_entering (closes_of candles) thr); [reflexivity|lia|].
  intros i Hi. apply exact_quiet_when_falling; [lia|exact Hdown].
Qed.

End ExactRunFacts.

(** ** The summary in exact arithmetic *)

Section ExactSummary.
Import Exact.
Local Open Scope Q_scope.

Lemma ratio_percent (w t : Z) :
  (0 <= w <= t)%Z -> (0 < t)%Z ->
  0 <= inject_Z w / inject_Z t * 100 <= 100.
Proof.
  intros Hw Ht.
  assert (Ht' : 0 < inject_Z t)
    by (change 0 with (inject_Z 0); rewrite <- Zlt_Qlt; lia).
  assert (Hw0 : 0 <= inject_Z w)
    by (change 0 with (inject_Z 0); rewrite <- Zle_Qle; lia).
  assert (Hwt : inject_Z w <= inject_Z t) by (rewrite <- Zle_Qle; lia).
  assert (H0 : 0 <= inject_Z w / inject_Z t) by (apply Qle_shift_div_l; lra).
  assert (H1 : inject_Z w / inject_Z t <= 1) by (apply Qle_shift_div_r; lra).
  lra.
Qed.

(** X14.  In exact arithmetic [success_rate] is a percentage: between 0 and
    100 on every input. *)
Theorem success_rate_is_percentage (candles : list (Candle Q)) (thr : Q) :
  exists r, run_strategy candles thr = Some r /\ 0 <= success_rate r <= 100.
Proof.
  destruct (final_counters candles thr) as (st & Efin & Hw).
  exists (summarise st). split; [unfold run_strategy; now rewrite Efin|].
  cbn [summarise success_rate].
  destruct (Z.eqb_spec (trades st) 0) as [Hz|Hnz].
  - change (0 <= 0 <= 100). lra.
  - apply ratio_percent; lia.
Qed.

(** X15.  In exact arithmetic a higher threshold never counts more wins:
    with [thr1 <= thr2], the run with [thr2] has at most the wins and at
    most the [success_rate] of the run with [thr1]. *)
Theorem higher_threshold_fewer_wins (candles : list (Candle Q)) (thr1 thr2 : Q) :
  thr1 <= thr2 ->
  exists st1 st2 r1 r2,
    final_position candles thr1 = Some st1 /\
    final_position candles thr2 = Some st2 /\
    run_strategy candles thr1 = Some r1 /\
    run_strategy candles thr2 = Some r2 /\
    (wins st2 <= wins st1)%Z /\
    success_rate r2 <= success_rate r1.
Proof.
  intros Hthr.
  destruct (final_thresholds candles thr1 thr2)
    as (s1 & s2 & E1 & E2 & Ht & _ & Hw).
  assert (Hwins : (wins s2 <= wins s1)%Z).
  { apply Hw. intros x Hx. apply exact_lt. apply exact_lt in Hx. lra. }
  destruct (final_counters candles thr1) as (s1' & E1' & Hb).
  rewrite E1 in E1'. injection E1' as <-.
  exists s1, s2, (summarise s1), (summarise s2).
  unfold run_strategy. rewrite E1, E2. repeat split; try assumption.
  cbn [summarise success_rate]. rewrite <- Ht.
  destruct (Z.eqb_spec (trades s1) 0) as [Hz|Hnz]; [change (0 <= 0); lra|].
  assert (Ht' : 0 < inject_Z (trades s1))
    by (change 0 with (inject_Z 0); rewrite <- Zlt_Qlt; lia).
  assert (Hq : inject_Z (wins s2) <= inject_Z (wins s1))
    by (rewrite <- Zle_Qle; exact Hwins).
  change (inject_Z (wins s2) / inject_Z (trades s1) * 100
          <= inject_Z (wins s1) / inject_Z (trades s1) * 100).
  apply Qmult_le_compat_r; [|lra].
  unfold Qdiv. apply Qmult_le_compat_r; [exact Hq|].
  apply Qlt_le_weak, Qinv_lt_0_compat, Ht'.
Qed.





End ExactSummary.

(** ** NaN closes in IEEE arithmetic *)

Section NaN.
Import Binary64.

Lemma sub_nan_r (x : float) : PrimFloat.sub x nan = nan.
Proof.
  apply Prim2SF_inj. rewrite FloatAxioms.sub_spec.
  change (Prim2SF nan) with S754_nan. now destruct (Prim2SF x).
Qed.

Lemma sub_nan_l (x : float) : PrimFloat.sub nan x = nan.
Proof.
  apply Prim2SF_inj. rewrite FloatAxioms.sub_spec.
  change (Prim2SF nan) with S754_nan. reflexivity.
Qed.

Lemma add_nan_r (x : float) : PrimFloat.add x nan = nan.
Proof.
  apply Prim2SF_inj. rewrite FloatAxioms.add_spec.
  change (Prim2SF nan) with S754_nan. now destruct (Prim2SF x).
Qed.

Lemma add_nan_l (x : float) : PrimFloat.add nan x = nan.
Proof.
  apply Prim2SF_inj. rewrite FloatAxioms.add_spec.
  change (Prim2SF nan) with S754_nan. reflexivity.
Qed.

Lemma div_nan_r (x : float) : PrimFloat.div x nan = nan.
Proof.
  apply Prim2SF_inj. rewrite FloatAxioms.div_spec.
  change (Prim2SF nan) with S754_nan. now destruct (Prim2SF x).
Qed.

Lemma div_nan_l (x : float) : PrimFloat.div nan x = nan.
Proof.
  apply Prim2SF_inj. rewrite FloatAxioms.div_spec.
  change (Prim2SF nan) with S754_nan. reflexivity.
Qed.

Lemma ltb_nan_r (x : float) : PrimFloat.ltb x nan = false.
Proof.
  rewrite FloatAxioms.ltb_spec. change (Prim2SF nan) with S754_nan.
  now destruct (Prim2SF x).
Qed.

Lemma nan_poisons_loss (l : list float) (a : float) :
  In nan l -> fold_left PrimFloat.sub l a = nan.
Proof.
  revert a. induction l as [|x l IH]; intros a Hin; [destruct Hin|].
  cbn [fold_left]. destruct Hin as [->|Hin]; [|now apply IH].
  rewrite sub_nan_r. clear. induction l as [|y l IH]; [reflexivity|].
  cbn [fold_left]. now rewrite sub_nan_l.
Qed.

Lemma nan_poisons_sum (l : list float) (a : float) :
  In nan l -> fold_left PrimFloat.add l a = nan.
Proof.
  revert a. induction l as [|x l IH]; intros a Hin; [destruct Hin|].
  cbn [fold_left]. destruct Hin as [->|Hin]; [|now apply IH].
  rewrite add_nan_r. clear. induction l as [|y l IH]; [reflexivity|].
  cbn [fold_left]. now rewrite add_nan_l.
Qed.

Lemma rsi_of_nan_loss (gain : float) : rsi_of (gain, nan) = nan.
Proof.
  change (rsi_of (gain, nan))
    with (if PrimFloat.eqb nan (of_Z 0) then of_Z 100
          else PrimFloat.sub (of_Z 100)
                 (PrimFloat.div (of_Z 100)
                    (PrimFloat.add (of_Z 1) (PrimFloat.div gain nan)))).
  change (PrimFloat.eqb nan (of_Z 0)) with false.
  now rewrite div_nan_r, add_nan_r, div_nan_r, sub_nan_r.
Qed.

(** A NaN change is not a gain: it is subtracted from the loss, which is
    NaN from then on. *)
Lemma rsi_of_nan_change (changes : list float) :
  In nan changes -> rsi_of (gain_of changes, loss_of changes) = nan.
Proof.
  intros Hin.
  assert (Hloss : loss_of changes = nan).
  { unfold loss_of. apply nan_poisons_loss. unfold falls.
    apply filter_In. split; [exact Hin|reflexivity]. }
  rewrite Hloss. apply rsi_of_nan_loss.
Qed.

(** A NaN close among the bars [i-period .. i] gives a NaN change. *)
Lemma nan_close_nan_change (closes : list float) (i period j : Z) :
  1 <= period <= i -> i < size closes ->
  i - period <= j <= i -> closes @ j = Some nan ->
  In nan (day_changes (slice closes (i - period) i)).
Proof.
  intros Hp Hi Hj Enan.
  destruct (rsi_changes_formula closes i period ltac:(lia)) as (_ & Hch & _).
  destruct (Z.eq_dec j (i - period)) as [->|Hne].
  - destruct (Hch (i - period + 1) ltac:(lia)) as (cur & prev & _ & Ep & Ec).
    replace (i - period + 1 - 1) with (i - period) in Ep by lia.
    rewrite Enan in Ep. injection Ep as <-.
    change (cur - nan)%D with (PrimFloat.sub cur nan) in Ec.
    rewrite sub_nan_r in Ec. eapply at_In. exact Ec.
  - destruct (Hch j ltac:(lia)) as (cur & prev & Ecur & _ & Ec).
    rewrite Enan in Ecur. injection Ecur as <-.
    change (nan - prev)%D with (PrimFloat.sub nan prev) in Ec.
    rewrite sub_nan_l in Ec. eapply at_In. exact Ec.
Qed.

Lemma sma_nan (closes : list float) (i p j : Z) :
  1 <= p <= i -> i < size closes -> i - p + 1 <= j <= i ->
  closes @ j = Some nan -> calculate_sma closes i p = Some nan.
Proof.
  intros Hp Hi Hj Enan. rewrite sma_window by lia. f_equal.
  assert (Hin : In nan (slice closes (i - p + 1) i)).
  { apply (at_In _ (j - (i - p + 1))). rewrite slice_at by lia.
    rewrite <- Enan. f_equal. lia. }
  unfold total. change (@dadd float ops) with PrimFloat.add.
  rewrite nan_poisons_sum by exact Hin. apply div_nan_l.
Qed.

(** X17.  In IEEE double arithmetic a NaN close among the bars
    [i-period .. i] makes [calculate_rsi] return NaN: no error is raised,
    the NaN change is added to the loss. *)
Theorem rsi_nan_propagates (closes : list float) (i period j : Z) :
  1 <= period <= i -> i < size closes ->
  i - period <= j <= i -> closes @ j = Some nan ->
  calculate_rsi closes i period = Some nan.
Proof.
  intros Hp Hi Hj Enan. rewrite rsi_window by lia. cbv zeta. f_equal.
  apply rsi_of_nan_change. now apply (nan_close_nan_change closes i period j).
Qed.

(** X18.  In IEEE double arithmetic a NaN close freezes the position for
    the bar it is in and the 14 bars after it: at a scanned index [i] with
    a NaN close among the bars [i-14 .. i], RSI and SMA(20) are NaN, every
    comparison with them is false, and the scan makes no transition. *)
Theorem nan_freezes_position (closes : list float) (thr : float) (i j : Z) :
  26 <= i < size closes -> i - 14 <= j <= i -> closes @ j = Some nan ->
  scan closes thr i = scan closes thr (i - 1).
Proof.
  intros Hi Hj Enan.
  destruct (scan_total closes thr (i - 1)) as [st Est]; [lia|].
  destruct (indicators_ok closes i Hi) as (r & m & a & p & Er & Em & Ea & Ep).
  rewrite scan_snoc, Est by lia. cbn [bind].
  rewrite (step_cases closes thr i st r m a p Er Em Ea Ep).
  rewrite rsi_window in Er by lia. cbv zeta in Er.
  rewrite rsi_of_nan_change in Er
    by (apply (nan_close_nan_change closes i 14 j); lia || assumption).
  rewrite (sma_nan closes i 20 j) in Ea by (lia || assumption).
  injection Er as <-. injection Ea as <-.
  assert (Hentry : entry_signal nan m nan p = false) by reflexivity.
  assert (Hexit : exit_signal nan nan p = false).
  { unfold exit_signal. change (p <? nan)%D with (PrimFloat.ltb p nan).
    rewrite !ltb_nan_r. reflexivity. }
  rewrite Hentry, Hexit. now destruct (in_position st).
Qed.

End NaN.

(** ** The further properties at concrete series *)


Section MoreBinary64Runs.
Import Binary64 Samples MoreSamples.

(** [held] has 27 bars: EMA(12) at index 10 and MACD at index 24 reach
    before the first bar, MACD at index 27 reaches past the last one. *)
Lemma ema_macd_fault_domain_witness :
  ema held 10 12 = None /\
  calculate_macd held 24 = None /\ calculate_macd held 27 = None.
Proof.
  split; [|split].
  - apply (proj1 (ema_macd_fault_domain held 10) 12); [lia|left; lia].
  - apply (proj2 (ema_macd_fault_domain held 24)). left. lia.
  - apply (proj2 (ema_macd_fault_domain held 27)). right. in_range.
Defined.

(** [held] has 27 bars: RSI(14) at index 27 reads past the last bar, and at
    index 30, while the warm-up index 13 and the last index 26 read inside
    the series. *)
Lemma rsi_fault_domain_witness :
  1 <= 14 /\
  calculate_rsi held 27 14 = None /\ calculate_rsi held 30 14 = None /\
  calculate_rsi held 13 14 <> None /\ calculate_rsi held 26 14 <> None.
Proof.
  assert (Hp : 1 <= 14) by lia. split; [exact Hp|].
  split; [|split; [|split]].
  - apply (proj2 (rsi_fault_domain held 27 14 Hp)). in_range.
  - apply (proj2 (rsi_fault_domain held 30 14 Hp)). in_range.
  - intros E. apply (proj1 (rsi_fault_domain held 13 14 Hp)) in E. lia.
  - intros E. apply (proj1 (rsi_fault_domain held 26 14 Hp)) in E.
    revert E. in_range.
Defined.

(** On [held] SMA(20) reads outside the series at the indices -1 and 27,
    and inside it at the warm-up index 5 and at the last index 26. *)
Lemma sma_fault_domain_witness :
  1 <= 20 /\
  calculate_sma held (-1) 20 = None /\ calculate_sma held 27 20 = None /\
  calculate_sma held 5 20 <> None /\ calculate_sma held 26 20 <> None.
Proof.
  assert (Hp : 1 <= 20) by lia. split; [exact Hp|].
  split; [|split; [|split]].
  - apply (proj2 (sma_fault_domain held (-1) 20 Hp)). left. lia.
  - apply (proj2 (sma_fault_domain held 27 20 Hp)). right. in_range.
  - intros E. apply (proj1 (sma_fault_domain held 5 20 Hp)) in E.
    destruct E as [E|E]; [lia|]. revert E. in_range.
  - intros E. apply (proj1 (sma_fault_domain held 26 20 Hp)) in E.
    destruct E as [E|E]; [lia|]. revert E. in_range.
Defined.

(** The position after bar 26 of [held] is not changed by the bar that
    [rally] adds. *)
Lemma scan_ignores_later_bars_witness :
  26 < size held /\ scan rally one_percent 26 = scan held one_percent 26.
Proof.
  split; [in_range|].
  exact (scan_ignores_later_bars held [of_Z 2006] one_percent 26
           ltac:(in_range)).
Defined.

(** [held] at index 26 and [shifted] at index 27 end with the same 26
    bars. *)
Lemma indicators_see_26_bars_witness :
  25 <= 26 < size held /\ 25 <= 27 < size shifted /\
  slice held 1 26 = slice shifted 2 27 /\
  calculate_rsi held 26 14 = calculate_rsi shifted 27 14 /\
  calculate_macd held 26 = calculate_macd shifted 27 /\
  calculate_sma held 26 20 = calculate_sma shifted 27 20.
Proof.
  assert (H1 : 25 <= 26 < size held) by in_range.
  assert (H2 : 25 <= 27 < size shifted) by in_range.
  assert (H3 : slice held (26 - 25) 26 = slice shifted (27 - 25) 27)
    by (vm_compute; reflexivity).
  split; [exact H1|]. split; [exact H2|]. split; [exact H3|].
  exact (indicators_see_26_bars held shifted 26 27 H1 H2 H3).
Defined.

(** The last bar of [gapped] has no price: RSI at that bar is NaN. *)
Lemma rsi_nan_propagates_witness :
  gapped @ 27 = Some nan /\ calculate_rsi gapped 27 14 = Some nan.
Proof.
  assert (E : gapped @ 27 = Some nan) by reflexivity.
  split; [exact E|].
  apply (rsi_nan_propagates gapped 27 14 27); [lia|in_range|lia|exact E].
Defined.

(** The position opened at bar 26 of [gapped] is still open, unchanged,
    after the bar without a price. *)
Lemma nan_freezes_position_witness :
  scan gapped one_percent 27 = scan gapped one_percent 26 /\
  exists st, scan gapped one_percent 27 = Some st /\ in_position st = true.
Proof.
  assert (E : scan gapped one_percent 27 = scan gapped one_percent (27 - 1)).
  { apply (nan_freezes_position gapped one_percent 27 27);
      [in_range|lia|reflexivity]. }
  split; [exact E|]. rewrite E. eexists. split; vm_compute; reflexivity.
Defined.

End MoreBinary64Runs.

Section MoreExactRuns.
Import Exact MoreSamples.
Local Open Scope Q_scope.

Lemma rsi_rising_is_100_witness :
  (1 <= 14 <= 29)%Z /\ (29 < size climb)%Z /\ rising (slice climb 15 29) /\
  calculate_rsi climb 29 14 = Some (inject_Z 100).
Proof.
  assert (H0 : (1 <= 14 <= 29)%Z) by lia.
  assert (H1 : (29 < size climb)%Z) by in_range.
  assert (H2 : rising (slice climb (29 - 14) 29)) by in_range.
  split; [exact H0|]. split; [exact H1|]. split; [exact H2|].
  exact (rsi_rising_is_100 climb 29 14 H0 H1 H2).
Defined.

Lemma rsi_falling_is_0_witness :
  falling (slice slide 15 29) /\
  exists r, calculate_rsi slide 29 14 = Some r /\ r == 0.
Proof.
  assert (H : falling (slice slide (29 - 14) 29)) by in_range.
  split; [exact H|].
  apply (rsi_falling_is_0 slide 29 14); [lia|in_range|exact H].
Defined.



Lemma rising_market_no_trades_witness :
  rising (closes_of (exact_candles climb)) /\
  run_strategy (exact_candles climb) (1 # 100) =
  Some {| success_rate := 0; average_return_percent := 0;
          trade_count := 0; trade_log := [] |}.
Proof.
  assert (H : rising (closes_of (exact_candles climb))) by in_range.
  split; [exact H|]. exact (rising_market_no_trades _ (1 # 100) H).
Defined.

Lemma falling_market_no_trades_witness :
  falling (closes_of (exact_candles slide)) /\
  run_strategy (exact_candles slide) (1 # 100) =
  Some {| success_rate := 0; average_return_percent := 0;
          trade_count := 0; trade_log := [] |}.
Proof.
  assert (H : falling (closes_of (exact_candles slide))) by in_range.
  split; [exact H|]. exact (falling_market_no_trades _ (1 # 100) H).
Defined.

(** The one trade of [rally_exact] returns 30/1976: a win at 1%, not at
    2%. *)
Lemma higher_threshold_fewer_wins_witness :
  1 # 100 <= 2 # 100 /\
  exists st1 st2,
    final_position (exact_candles rally_exact) (1 # 100) = Some st1 /\
    final_position (exact_candles rally_exact) (2 # 100) = Some st2 /\
    wins st1 = 1%Z /\ wins st2 = 0%Z /\ (wins st2 <= wins st1)%Z.
Proof.
  assert (H : 1 # 100 <= 2 # 100) by in_range.
  split; [exact H|].
  destruct (higher_threshold_fewer_wins (exact_candles rally_exact) _ _ H)
    as (st1 & st2 & _ & _ & E1 & E2 & _ & _ & Hw & _).
  exists st1, st2. split; [exact E1|]. split; [exact E2|].
  vm_compute in E1, E2. injection E1 as <-. injection E2 as <-.
  repeat split; easy.
Defined.


End MoreExactRuns.
